(** * The audio-proxy device (audio_proxy/service/DeviceImpl.cpp)

    A shallow embedding of [DeviceImpl]: the patch-handle registry
    (create / release / update), the stream session entry points
    (openOutputStream / close), the configuration translator
    [toAidlAudioConfig] and the table of unsupported capabilities.

    The device object holds a set of open patch handles and two constants;
    the handle generator [gNextAudioPatchHandle] is a variable of the whole
    process, and the stream provider is an object the device only holds a
    reference to.  Every method is therefore a function from the process
    state (and, where the method calls through the reference, the provider's
    state) to the new state and the values handed to the HIDL callback. *)

From stdpp Require Import gmap strings list sorting.

Local Open Scope Z_scope.

(** ** Machine integers

    Fixed-width values are integers in [Z]; a conversion to a 32-bit signed
    type keeps the low 32 bits and reads them in two's complement. *)

Definition INT32_MIN : Z := -2147483648.
Definition INT32_MAX : Z := 2147483647.
Definition UINT32_MAX : Z := 4294967295.

Definition is_int32 (z : Z) : Prop := INT32_MIN ≤ z ≤ INT32_MAX.
Definition is_uint32 (z : Z) : Prop := 0 ≤ z ≤ UINT32_MAX.

(** [static_cast<int32_t>(z)], and the value an [int32_t] holds after an
    arithmetic result [z] is stored into it. *)
Definition to_int32 (z : Z) : Z :=
  (z + 2147483648) `mod` 4294967296 - 2147483648.

(** [x++] on an [int32_t] variable: the value read, and the value stored.
    The increment of [INT32_MAX] is outside what the language defines; the
    stored value is modelled as the two's complement wrap the target's
    addition produces. *)
Definition post_increment (x : Z) : Z * Z := (x, to_int32 (x + 1)).

(** ** HAL types (android.hardware.audio, versions 5.0 and 6.0) *)

Inductive Result : Set :=
  | OK
  | NOT_INITIALIZED
  | INVALID_ARGUMENTS
  | INVALID_STATE
  | NOT_SUPPORTED.

#[global] Instance Result_eq_dec : EqDecision Result.
Proof. solve_decision. Defined.

(** [typedef int32_t AudioPatchHandle], [typedef int32_t AudioPortHandle],
    [typedef uint32_t AudioHwSync]. *)
Abbreviation AudioPatchHandle := Z (only parsing).
Abbreviation AudioPortHandle := Z (only parsing).
Abbreviation AudioHwSync := Z (only parsing).

(** A [float] is carried as its IEEE-754 binary32 bit pattern; [0.f] is the
    all-zero pattern. *)
Abbreviation float := Z (only parsing).
Definition float_zero : float := 0.

(** Payload structures this file passes around and never inspects.  Only a
    few identifying fields are kept. *)
Record AudioPortConfig : Set := mkAudioPortConfig {
  apc_id : AudioPortHandle;
  apc_configMask : Z;
  apc_role : Z
}.

Record AudioPort : Set := mkAudioPort {
  ap_id : AudioPortHandle;
  ap_role : Z;
  ap_name : string
}.

Record DeviceAddress : Set := mkDeviceAddress {
  device : Z;
  busAddress : string
}.

Record ParameterValue : Set := mkParameterValue {
  pv_key : string;
  pv_value : string
}.

Record MicrophoneInfo : Set := mkMicrophoneInfo {
  mi_deviceId : string
}.

Record SourceMetadata : Set := mkSourceMetadata {
  sm_tracks : list (Z * Z * Z)
}.

Record SinkMetadata : Set := mkSinkMetadata {
  km_tracks : list (Z * Z)
}.

(** [AudioConfig]: [uint32_t sampleRateHz], [bitfield<AudioChannelMask>]
    (32 bits, unsigned), [AudioFormat] (an enum over [uint32_t]), the
    offload information and a 64-bit frame count. *)
Record AudioConfig : Set := mkAudioConfig {
  sampleRateHz : Z;
  channelMask : Z;
  format : Z;
  offloadInfo : list Z;
  frameCount : Z
}.

Definition AudioConfig_wf (c : AudioConfig) : Prop :=
  is_uint32 (sampleRateHz c) ∧ is_uint32 (channelMask c) ∧ is_uint32 (format c).

(** ** Bus-side types (AidlTypes.h)

    Modelled from the spec: the bus configuration of section 4.1, the three
    fields named by the designated initializer in [toAidlAudioConfig].  The
    sample rate is an [int32_t] (the cast in the source says so); the two
    enumerations are AIDL enums, which are backed by a 32-bit signed [int]. *)
Record AidlAudioConfig : Set := mkAidlAudioConfig {
  aidl_format : Z;
  aidl_sampleRateHz : Z;
  aidl_channelMask : Z
}.

(** [toAidlAudioConfig] *)
Definition toAidlAudioConfig (hidl_config : AudioConfig) : AidlAudioConfig :=
  {| aidl_format := to_int32 (format hidl_config);
     aidl_sampleRateHz := to_int32 (sampleRateHz hidl_config);
     aidl_channelMask := to_int32 (channelMask hidl_config) |}.

(** ** The device and the process state *)

(** [DeviceImpl]'s own fields.  [mBusStreamProvider] is a reference: the
    provider's state is passed to the methods that call through it. *)
Record DeviceImpl : Type := mkDeviceImpl {
  mBufferSizeMs : Z;
  mLatencyMs : Z;
  mAudioPatchHandles : gset AudioPatchHandle
}.

(** The file-scope variable together with the device. *)
Record Process : Type := mkProcess {
  gNextAudioPatchHandle : AudioPatchHandle;
  dev : DeviceImpl
}.

(** The constructor: the two constants are stored, the handle set starts
    empty. *)
Definition DeviceImpl_new (bufferSizeMs latencyMs : Z) : DeviceImpl :=
  {| mBufferSizeMs := bufferSizeMs;
     mLatencyMs := latencyMs;
     mAudioPatchHandles := ∅ |}.

(** Process start: [gNextAudioPatchHandle = 1] and a freshly built device. *)
Definition startup (bufferSizeMs latencyMs : Z) : Process :=
  {| gNextAudioPatchHandle := 1;
     dev := DeviceImpl_new bufferSizeMs latencyMs |}.

Definition with_handles (hs : gset AudioPatchHandle) (d : DeviceImpl) : DeviceImpl :=
  {| mBufferSizeMs := mBufferSizeMs d;
     mLatencyMs := mLatencyMs d;
     mAudioPatchHandles := hs |}.

Definition open_handles (p : Process) : gset AudioPatchHandle :=
  mAudioPatchHandles (dev p).

(** [std::set::insert(key)] and [std::set::erase(key)]; [erase] returns the
    number of elements removed. *)
Definition set_insert (k : Z) (s : gset Z) : gset Z := {[k]} ∪ s.

Definition set_erase (k : Z) (s : gset Z) : gset Z * Z :=
  (s ∖ {[k]}, if decide (k ∈ s) then 1 else 0).

(** ** Patch handle registry *)

(** [createAudioPatch]: the callback receives [(Result::OK, handle)]. *)
Definition createAudioPatch (sources sinks : list AudioPortConfig)
    (p : Process) : Process * (Result * AudioPatchHandle) :=
  let '(handle, next) := post_increment (gNextAudioPatchHandle p) in
  ({| gNextAudioPatchHandle := next;
      dev := with_handles (set_insert handle (open_handles p)) (dev p) |},
   (OK, handle)).

(** [releaseAudioPatch] *)
Definition releaseAudioPatch (patch : AudioPatchHandle)
    (p : Process) : Process * Result :=
  let '(handles, removed) := set_erase patch (open_handles p) in
  ({| gNextAudioPatchHandle := gNextAudioPatchHandle p;
      dev := with_handles handles (dev p) |},
   if decide (removed > 0) then OK else INVALID_ARGUMENTS).

(** [updateAudioPatch] (interface version 6 and later) *)
Definition updateAudioPatch (previousPatch : AudioPatchHandle)
    (sources sinks : list AudioPortConfig)
    (p : Process) : Process * (Result * AudioPatchHandle) :=
  let '(handles, removed) := set_erase previousPatch (open_handles p) in
  if decide (removed = 0) then
    ({| gNextAudioPatchHandle := gNextAudioPatchHandle p;
        dev := with_handles handles (dev p) |},
     (INVALID_ARGUMENTS, 0))
  else
    let '(newPatch, next) := post_increment (gNextAudioPatchHandle p) in
    ({| gNextAudioPatchHandle := next;
        dev := with_handles (set_insert newPatch handles) (dev p) |},
     (OK, newPatch)).

Definition supportsAudioPatches (p : Process) : Process * bool := (p, true).

(** [initCheck] *)
Definition initCheck (p : Process) : Process * Result := (p, OK).

(** ** The stream provider and the stream objects *)

(** Modelled from the spec: the Stream Provider of section 6
    (BusStreamProvider.h is not among the sources).  [P] is the provider's
    state and [B] the bus streams it hands out; [openOutputStream] may
    return a null pointer ([None]), [onStreamOutCreated] registers a session
    and returns nothing, [cleanAndCountStreamOuts] prunes and returns the
    number of sessions still registered (a [size_t]). *)
Class BusStreamProvider (P B : Type) := {
  provider_openOutputStream :
    string → AidlAudioConfig → Z → P → P * option B;
  onStreamOutCreated_ : option B * Z * Z → P → P;
  cleanAndCountStreamOuts : P → P * Z
}.

(** [StreamOutImpl] as the device builds it: the bus stream pointer and the
    two constants of the device. *)
Record StreamOutImpl (B : Type) : Type := mkStreamOutImpl {
  so_stream : option B;
  so_bufferSizeMs : Z;
  so_latencyMs : Z
}.
Arguments mkStreamOutImpl {B} _ _ _.
Arguments so_stream {B} _.
Arguments so_bufferSizeMs {B} _.
Arguments so_latencyMs {B} _.

Definition onStreamOutCreated {P B} `{BusStreamProvider P B}
    (s : StreamOutImpl B) (prov : P) : P :=
  onStreamOutCreated_ (so_stream s, so_bufferSizeMs s, so_latencyMs s) prov.

(** An input stream object; the device never builds one. *)
Record IStreamIn : Set := mkIStreamIn { in_ioHandle : Z }.

(** A call either returns to the transport or stops the process
    ([DCHECK] failure). *)
Inductive Outcome (A : Type) : Type :=
  | Returns (a : A)
  | Aborts.
Arguments Returns {A} a.
Arguments Aborts {A}.

(** ** Stream session manager *)

(** [openOutputStream].  [DCHECK] is compiled in only in debug builds;
    [dcheck_is_on] is the build's choice.  The callback receives
    [(Result::OK, streamOut, config)]. *)
Definition openOutputStream {P B} `{BusStreamProvider P B}
    (dcheck_is_on : bool)
    (ioHandle : Z) (device : DeviceAddress) (config : AudioConfig)
    (flags : Z) (sourceMetadata : SourceMetadata)
    (prov : P) (p : Process)
    : Outcome (P * Process * (Result * StreamOutImpl B * AudioConfig)) :=
  let '(prov1, busOutputStream) :=
    provider_openOutputStream (busAddress device) (toAidlAudioConfig config)
                              (to_int32 flags) prov in
  if dcheck_is_on && negb (bool_decide (is_Some busOutputStream)) then Aborts
  else
    let streamOut :=
      mkStreamOutImpl busOutputStream (mBufferSizeMs (dev p)) (mLatencyMs (dev p)) in
    let prov2 := onStreamOutCreated streamOut prov1 in
    Returns (prov2, p, (OK, streamOut, config)).

(** [close] (interface version 6 and later) *)
Definition close {P B} `{BusStreamProvider P B}
    (prov : P) (p : Process) : P * Process * Result :=
  let '(prov1, count) := cleanAndCountStreamOuts prov in
  (prov1, p, if decide (count = 0) then OK else INVALID_STATE).

(** ** Unsupported capabilities *)

Definition setMasterVolume (volume : float) (p : Process) : Process * Result :=
  (p, NOT_SUPPORTED).

Definition getMasterVolume (p : Process) : Process * (Result * float) :=
  (p, (NOT_SUPPORTED, float_zero)).

Definition setMicMute (mute : bool) (p : Process) : Process * Result :=
  (p, NOT_SUPPORTED).

Definition getMicMute (p : Process) : Process * (Result * bool) :=
  (p, (NOT_SUPPORTED, false)).

Definition setMasterMute (mute : bool) (p : Process) : Process * Result :=
  (p, NOT_SUPPORTED).

Definition getMasterMute (p : Process) : Process * (Result * bool) :=
  (p, (NOT_SUPPORTED, false)).

Definition getInputBufferSize (config : AudioConfig) (p : Process)
    : Process * (Result * Z) :=
  (p, (NOT_SUPPORTED, 0)).

(** [sp<IStreamIn>()] is the null pointer. *)
Definition openInputStream (ioHandle : Z) (device : DeviceAddress)
    (config : AudioConfig) (flags : Z) (sinkMetadata : SinkMetadata)
    (p : Process) : Process * (Result * option IStreamIn * AudioConfig) :=
  (p, (NOT_SUPPORTED, None, config)).

Definition getAudioPort (port : AudioPort) (p : Process)
    : Process * (Result * AudioPort) :=
  (p, (NOT_SUPPORTED, port)).

Definition setAudioPortConfig (config : AudioPortConfig) (p : Process)
    : Process * Result :=
  (p, NOT_SUPPORTED).

Definition getHwAvSync (p : Process) : Process * (Result * AudioHwSync) :=
  (p, (NOT_SUPPORTED, 0)).

Definition setScreenState (turnedOn : bool) (p : Process) : Process * Result :=
  (p, NOT_SUPPORTED).

Definition getParameters (context : list ParameterValue) (keys : list string)
    (p : Process) : Process * (Result * list ParameterValue) :=
  (p, (NOT_SUPPORTED, [])).

Definition setParameters (context parameters : list ParameterValue)
    (p : Process) : Process * Result :=
  (p, NOT_SUPPORTED).

Definition getMicrophones (p : Process)
    : Process * (Result * list MicrophoneInfo) :=
  (p, (NOT_SUPPORTED, [])).

Definition setConnectedState (address : DeviceAddress) (connected : bool)
    (p : Process) : Process * Result :=
  (p, OK).

Definition addDeviceEffect (device : AudioPortHandle) (effectId : Z)
    (p : Process) : Process * Result :=
  (p, NOT_SUPPORTED).

Definition removeDeviceEffect (device : AudioPortHandle) (effectId : Z)
    (p : Process) : Process * Result :=
  (p, NOT_SUPPORTED).

(** The value-initialised [AudioPort]. *)
Definition AudioPort_default : AudioPort :=
  {| ap_id := 0; ap_role := 0; ap_name := "" |}.

(** ** Sequences of registry calls *)

Inductive PatchCall : Set :=
  | CallCreate (sources sinks : list AudioPortConfig)
  | CallRelease (patch : AudioPatchHandle)
  | CallUpdate (previousPatch : AudioPatchHandle)
               (sources sinks : list AudioPortConfig).

(** What the caller sees of one call. *)
Inductive PatchEvent : Set :=
  | EvCreate (retval : Result) (handle : AudioPatchHandle)
  | EvRelease (patch : AudioPatchHandle) (retval : Result)
  | EvUpdate (previousPatch : AudioPatchHandle) (retval : Result)
             (handle : AudioPatchHandle).

Definition perform (c : PatchCall) (p : Process) : Process * PatchEvent :=
  match c with
  | CallCreate sources sinks =>
      let '(p', (r, h)) := createAudioPatch sources sinks p in (p', EvCreate r h)
  | CallRelease patch =>
      let '(p', r) := releaseAudioPatch patch p in (p', EvRelease patch r)
  | CallUpdate previousPatch sources sinks =>
      let '(p', (r, h)) := updateAudioPatch previousPatch sources sinks p in
      (p', EvUpdate previousPatch r h)
  end.

Fixpoint run (cs : list PatchCall) (p : Process) : Process * list PatchEvent :=
  match cs with
  | [] => (p, [])
  | c :: cs' =>
      let '(p1, e) := perform c p in
      let '(p2, tr) := run cs' p1 in
      (p2, e :: tr)
  end.

(** The handles handed out along a trace, in order: by every create, and by
    every update that succeeded. *)
Fixpoint allocated (tr : list PatchEvent) : list AudioPatchHandle :=
  match tr with
  | [] => []
  | EvCreate _ h :: tr' => h :: allocated tr'
  | EvUpdate _ OK h :: tr' => h :: allocated tr'
  | _ :: tr' => allocated tr'
  end.

(** The handle an event takes out of the open set: a successful release, or
    the handle a successful update replaces. *)
Definition retires (e : PatchEvent) (h : AudioPatchHandle) : Prop :=
  e = EvRelease h OK ∨ ∃ h', e = EvUpdate h OK h'.

(** The number of calls in a sequence that may take a handle from the
    generator. *)
Fixpoint allocating_calls (cs : list PatchCall) : Z :=
  match cs with
  | [] => 0
  | CallRelease _ :: cs' => allocating_calls cs'
  | _ :: cs' => 1 + allocating_calls cs'
  end.

(** Every open handle lies below the generator. *)
Definition below_generator (p : Process) : Prop :=
  ∀ h, h ∈ open_handles p → h < gNextAudioPatchHandle p.

(** [n] updates in a row, each replacing the handle the previous one
    returned, the first one replacing [to_int32 start]. *)
Fixpoint update_chain (start : Z) (n : nat) : list PatchCall :=
  match n with
  | O => []
  | S n' => CallUpdate (to_int32 start) [] [] :: update_chain (start + 1) n'
  end.

(** Two creates, then updates of the second patch until the generator has
    gone once around the 32-bit range. *)
Definition calls_around_the_range : list PatchCall :=
  CallCreate [] [] :: CallCreate [] [] ::
  update_chain 2 (Z.to_nat 4294967294).

(** As many creates as there are positive handle values, and one more. *)
Definition calls_past_the_range : list PatchCall :=
  CallCreate [] [] ::
  replicate (Z.to_nat 2147483646) (CallCreate [] []) ++ [CallCreate [] []].

(** The handles a trace takes out of the open set, in order: by every
    release that succeeded, and by every update that succeeded. *)
Fixpoint retired (tr : list PatchEvent) : list AudioPatchHandle :=
  match tr with
  | [] => []
  | EvRelease h OK :: tr' => h :: retired tr'
  | EvUpdate h OK _ :: tr' => h :: retired tr'
  | _ :: tr' => retired tr'
  end.

(** ** Several devices in one process

    [gNextAudioPatchHandle] lives at namespace scope, [mAudioPatchHandles]
    in each [DeviceImpl]: the devices built in one process draw their
    handles from the one generator and keep separate open sets.  A method
    called on the [i]-th device runs on the generator and that device's
    fields, and stores both back. *)
Record World : Type := mkWorld {
  w_next : AudioPatchHandle;
  w_devices : list DeviceImpl
}.

Definition call_on {A : Type} (i : nat) (method : Process → Process * A)
    (w : World) : option (World * A) :=
  match w_devices w !! i with
  | None => None
  | Some d =>
      let '(p', a) := method (mkProcess (w_next w) d) in
      Some ({| w_next := gNextAudioPatchHandle p';
               w_devices := <[i := dev p']> (w_devices w) |}, a)
  end.

(** ** A provider to run the methods on

    It accepts every request, numbers the bus streams it hands out, keeps
    every session registered with it and reports how many it keeps. *)
Record CountingProvider : Type := mkCountingProvider {
  cp_opened : Z;
  cp_sessions : list (option Z * Z * Z)
}.

#[global] Instance CountingProvider_ops : BusStreamProvider CountingProvider Z := {|
  provider_openOutputStream _ _ _ s :=
    ({| cp_opened := cp_opened s + 1; cp_sessions := cp_sessions s |},
     Some (cp_opened s));
  onStreamOutCreated_ so s :=
    {| cp_opened := cp_opened s; cp_sessions := so :: cp_sessions s |};
  cleanAndCountStreamOuts s := (s, Z.of_nat (length (cp_sessions s)))
|}.

(** A provider that has no bus stream to give: every open request comes back
    null, and it never has a session to count. *)
Inductive NullProvider : Type := null_provider.

#[global] Instance NullProvider_ops : BusStreamProvider NullProvider Z := {|
  provider_openOutputStream _ _ _ s := (s, None);
  onStreamOutCreated_ _ s := s;
  cleanAndCountStreamOuts s := (s, 0)
|}.

(** ** Examples *)

(** The scenario of section 8: create, create, release 1, release 1 again,
    create. *)
Example scenario_trace :
  (run [CallCreate [] []; CallCreate [] []; CallRelease 1; CallRelease 1;
        CallCreate [] []] (startup 20 40)).2
  = [EvCreate OK 1; EvCreate OK 2; EvRelease 1 OK;
     EvRelease 1 INVALID_ARGUMENTS; EvCreate OK 3].
Proof. vm_compute. reflexivity. Qed.

Example scenario_open_handles :
  open_handles
    (run [CallCreate [] []; CallCreate [] []; CallRelease 1; CallRelease 1;
          CallCreate [] []] (startup 20 40)).1
  = {[2; 3]}.
Proof. vm_compute. reflexivity. Qed.

Example to_int32_examples :
  to_int32 48000 = 48000 ∧ to_int32 4294967295 = -1 ∧
  to_int32 2147483648 = -2147483648 ∧ to_int32 (-5) = -5.
Proof. vm_compute. done. Qed.

(** * Properties *)

(** ** 32-bit arithmetic *)

Lemma to_int32_range (z : Z) : is_int32 (to_int32 z).
Proof. unfold is_int32, to_int32, INT32_MIN, INT32_MAX. Z.div_mod_to_equations. lia. Qed.

Lemma to_int32_id (z : Z) : is_int32 z → to_int32 z = z.
Proof. unfold is_int32, to_int32, INT32_MIN, INT32_MAX. intros. Z.div_mod_to_equations. lia. Qed.

Lemma to_int32_high (z : Z) :
  INT32_MAX < z ≤ UINT32_MAX → to_int32 z = z - 4294967296.
Proof. unfold to_int32, INT32_MAX, UINT32_MAX. intros. Z.div_mod_to_equations. lia. Qed.

Lemma to_int32_mod (z : Z) : to_int32 z `mod` 4294967296 = z `mod` 4294967296.
Proof. unfold to_int32. Z.div_mod_to_equations. lia. Qed.

Lemma to_int32_idemp_succ (z : Z) : to_int32 (to_int32 z + 1) = to_int32 (z + 1).
Proof. unfold to_int32. Z.div_mod_to_equations. lia. Qed.

Lemma to_int32_testbit (z i : Z) :
  0 ≤ i < 32 → Z.testbit (to_int32 z) i = Z.testbit z i.
Proof.
  intros Hi.
  rewrite <- (Z.mod_pow2_bits_low (to_int32 z) 32 i) by lia.
  rewrite <- (Z.mod_pow2_bits_low z 32 i) by lia.
  change (2 ^ 32) with 4294967296. by rewrite to_int32_mod.
Qed.

(** ** The handle set *)

Lemma set_erase_absent (k : Z) (s : gset Z) : k ∉ s → set_erase k s = (s, 0).
Proof.
  intros Hk. unfold set_erase. rewrite decide_False by done.
  f_equal. apply leibniz_equiv. intros x.
  rewrite elem_of_difference, elem_of_singleton.
  split; [by intros [Hx _] | intros Hx; split; [done | by intros ->]].
Qed.

Lemma set_erase_present (k : Z) (s : gset Z) :
  k ∈ s → set_erase k s = (s ∖ {[k]}, 1).
Proof. intros Hk. unfold set_erase. by rewrite decide_True. Qed.

Lemma with_handles_same (p : Process) :
  {| gNextAudioPatchHandle := gNextAudioPatchHandle p;
     dev := with_handles (open_handles p) (dev p) |} = p.
Proof. by destruct p as [n [b l hs]]. Qed.

Lemma releaseAudioPatch_absent (h : Z) (p : Process) :
  h ∉ open_handles p → releaseAudioPatch h p = (p, INVALID_ARGUMENTS).
Proof.
  intros Hh. unfold releaseAudioPatch. rewrite set_erase_absent by done.
  simpl. by rewrite with_handles_same.
Qed.

Lemma releaseAudioPatch_present (h : Z) (p : Process) :
  h ∈ open_handles p →
  releaseAudioPatch h p =
    ({| gNextAudioPatchHandle := gNextAudioPatchHandle p;
        dev := with_handles (open_handles p ∖ {[h]}) (dev p) |}, OK).
Proof. intros Hh. unfold releaseAudioPatch. by rewrite set_erase_present. Qed.

(** C5: [releaseAudioPatch h] returns OK exactly when [h] is open; it then
    removes [h] and nothing else, and touches neither the generator nor the
    device's constants.  When [h] is not open it returns INVALID_ARGUMENTS
    and the state is the one before the call.  Called a second time right
    after, it returns INVALID_ARGUMENTS. *)
Theorem releaseAudioPatch_spec (h : AudioPatchHandle) (p : Process) :
  ((releaseAudioPatch h p).2 = OK ↔ h ∈ open_handles p) ∧
  (h ∈ open_handles p →
     open_handles (releaseAudioPatch h p).1 = open_handles p ∖ {[h]} ∧
     (∀ k, k ∈ open_handles (releaseAudioPatch h p).1 ↔ k ∈ open_handles p ∧ k ≠ h) ∧
     gNextAudioPatchHandle (releaseAudioPatch h p).1 = gNextAudioPatchHandle p ∧
     mBufferSizeMs (dev (releaseAudioPatch h p).1) = mBufferSizeMs (dev p) ∧
     mLatencyMs (dev (releaseAudioPatch h p).1) = mLatencyMs (dev p)) ∧
  (h ∉ open_handles p → releaseAudioPatch h p = (p, INVALID_ARGUMENTS)) ∧
  (releaseAudioPatch h (releaseAudioPatch h p).1).2 = INVALID_ARGUMENTS.
Proof.
  assert (h ∉ open_handles (releaseAudioPatch h p).1) as Hgone.
  { unfold releaseAudioPatch, open_handles. simpl.
    apply not_elem_of_difference. right. by apply elem_of_singleton. }
  split_and!.
  - destruct (decide (h ∈ open_handles p)) as [Hin | Hout].
    + by rewrite releaseAudioPatch_present.
    + by rewrite releaseAudioPatch_absent.
  - intros Hin. rewrite releaseAudioPatch_present by done.
    unfold open_handles. simpl. split_and!; try done.
    intros k. rewrite elem_of_difference, elem_of_singleton. done.
  - apply releaseAudioPatch_absent.
  - by rewrite (releaseAudioPatch_absent h _ Hgone).
Qed.

(** C4: when [h] is not open, [updateAudioPatch h] hands the callback
    INVALID_ARGUMENTS (with handle 0) and the state after the call is the
    state before it: generator and open set are untouched, so the create
    that follows returns what it would have returned without the update. *)
Theorem updateAudioPatch_not_open (h : AudioPatchHandle)
    (sources sinks : list AudioPortConfig) (p : Process) :
  h ∉ open_handles p →
  updateAudioPatch h sources sinks p = (p, (INVALID_ARGUMENTS, 0)) ∧
  gNextAudioPatchHandle (updateAudioPatch h sources sinks p).1
    = gNextAudioPatchHandle p ∧
  open_handles (updateAudioPatch h sources sinks p).1 = open_handles p ∧
  ∀ sources' sinks',
    (createAudioPatch sources' sinks' (updateAudioPatch h sources sinks p).1).2
    = (createAudioPatch sources' sinks' p).2.
Proof.
  intros Hh.
  assert (updateAudioPatch h sources sinks p = (p, (INVALID_ARGUMENTS, 0))) as ->.
  { unfold updateAudioPatch. rewrite set_erase_absent by done.
    simpl. by rewrite with_handles_same. }
  done.
Qed.

Lemma updateAudioPatch_not_open_witness :
  updateAudioPatch 7 [] [] (startup 20 40) = (startup 20 40, (INVALID_ARGUMENTS, 0)) ∧
  (createAudioPatch [] [] (updateAudioPatch 7 [] [] (startup 20 40)).1).2 = (OK, 1).
Proof.
  assert (7 ∉ open_handles (startup 20 40)) as H by apply not_elem_of_empty.
  destruct (updateAudioPatch_not_open 7 [] [] (startup 20 40) H) as (Hu & _ & _ & Hc).
  split; [exact Hu |]. rewrite Hc. reflexivity.
Defined.

(** C10: [initCheck] returns OK in every state and leaves the state as it
    is. *)
Theorem initCheck_ok (p : Process) : initCheck p = (p, OK).
Proof. reflexivity. Qed.

(** ** Stream session manager *)

(** C2: [close] returns OK exactly when the provider's clean-and-count
    reports zero sessions, and INVALID_STATE otherwise; in both cases the
    process state (open handles, generator, device constants) is the one
    before the call, and the provider is left as its own clean-and-count
    left it. *)
Theorem close_spec {P B} `{BusStreamProvider P B} (prov : P) (p : Process) :
  ((close prov p).2 = OK ↔ (cleanAndCountStreamOuts prov).2 = 0) ∧
  ((close prov p).2 = INVALID_STATE ↔ (cleanAndCountStreamOuts prov).2 ≠ 0) ∧
  (close prov p).1.2 = p ∧
  (close prov p).1.1 = (cleanAndCountStreamOuts prov).1.
Proof.
  unfold close. destruct (cleanAndCountStreamOuts prov) as [prov1 count]. simpl.
  destruct (decide (count = 0)) as [-> | Hne]; split_and!; try done.
Qed.

Example close_with_live_session :
  close (mkCountingProvider 1 [(Some 0, 20, 40)]) (startup 20 40)
  = (mkCountingProvider 1 [(Some 0, 20, 40)], startup 20 40, INVALID_STATE).
Proof. reflexivity. Qed.

Example close_without_sessions :
  close (mkCountingProvider 1 []) (startup 20 40)
  = (mkCountingProvider 1 [], startup 20 40, OK).
Proof. reflexivity. Qed.

(** C6: when the provider returns a bus stream, [openOutputStream] returns
    to the caller, in either build, with OK, a session wrapping that bus
    stream with the device's two constants, and the requested config itself
    as the negotiated config; the session is registered with the provider and
    the process state is unchanged. *)
Theorem openOutputStream_echoes_config {P B} `{BusStreamProvider P B}
    (dcheck_is_on : bool) (ioHandle : Z) (device : DeviceAddress)
    (config : AudioConfig) (flags : Z) (sourceMetadata : SourceMetadata)
    (prov : P) (p : Process) (prov1 : P) (bus : B) :
  provider_openOutputStream (busAddress device) (toAidlAudioConfig config)
                            (to_int32 flags) prov = (prov1, Some bus) →
  let streamOut :=
    mkStreamOutImpl (Some bus) (mBufferSizeMs (dev p)) (mLatencyMs (dev p)) in
  openOutputStream dcheck_is_on ioHandle device config flags sourceMetadata prov p
  = Returns (onStreamOutCreated streamOut prov1, p, (OK, streamOut, config)).
Proof.
  intros Hopen streamOut. unfold openOutputStream. rewrite Hopen.
  rewrite bool_decide_eq_true_2 by (by eexists).
  simpl. by rewrite andb_false_r.
Qed.

Lemma openOutputStream_echoes_config_witness :
  openOutputStream true 13 (mkDeviceAddress 16777216 "bus0_media")
                   (mkAudioConfig 48000 3 1 [] 960) 2
                   (mkSourceMetadata [(1, 2, 1)])
                   (mkCountingProvider 0 []) (startup 20 40)
  = Returns (mkCountingProvider 1 [(Some 0, 20, 40)], startup 20 40,
             (OK, mkStreamOutImpl (Some 0) 20 40, mkAudioConfig 48000 3 1 [] 960)).
Proof.
  exact (openOutputStream_echoes_config true 13 (mkDeviceAddress 16777216 "bus0_media")
           (mkAudioConfig 48000 3 1 [] 960) 2 (mkSourceMetadata [(1, 2, 1)])
           (mkCountingProvider 0 []) (startup 20 40) (mkCountingProvider 1 []) 0
           eq_refl).
Defined.

(** ** Configuration translator *)

(** C7 as stated fails on a sample rate above [INT32_MAX]: the cast to
    [int32_t] turns 4294967295 into -1. *)
Lemma toAidlAudioConfig_sample_rate_not_preserved :
  AudioConfig_wf (mkAudioConfig 4294967295 3 1 [] 0) ∧
  aidl_sampleRateHz (toAidlAudioConfig (mkAudioConfig 4294967295 3 1 [] 0)) = -1 ∧
  aidl_sampleRateHz (toAidlAudioConfig (mkAudioConfig 4294967295 3 1 [] 0))
    ≠ sampleRateHz (mkAudioConfig 4294967295 3 1 [] 0).
Proof.
  split_and!.
  - unfold AudioConfig_wf, is_uint32, UINT32_MAX. simpl. lia.
  - reflexivity.
  - vm_compute. discriminate.
Qed.

Lemma field_reencoded (x : Z) :
  is_uint32 x →
  is_int32 (to_int32 x) ∧
  to_int32 x `mod` 4294967296 = x ∧
  (∀ i, 0 ≤ i < 32 → Z.testbit (to_int32 x) i = Z.testbit x i) ∧
  (x ≤ INT32_MAX → to_int32 x = x) ∧
  (INT32_MAX < x → to_int32 x = x - 4294967296).
Proof.
  intros Hx. split_and!.
  - apply to_int32_range.
  - rewrite to_int32_mod. unfold is_uint32, UINT32_MAX in Hx.
    apply Z.mod_small. lia.
  - intros i Hi. by apply to_int32_testbit.
  - intros Hle. apply to_int32_id. unfold is_uint32, is_int32, INT32_MIN in *. lia.
  - intros Hgt. apply to_int32_high. unfold is_uint32 in Hx. lia.
Qed.

(** C7, amended: [toAidlAudioConfig] is a total function of its argument
    alone.  For a config whose three fields are 32-bit unsigned values, each
    translated field is the 32-bit signed reading of the same 32 bits: it is
    congruent to the original modulo 2^32 and agrees with it on bits 0..31;
    it equals the original exactly when the original is at most
    [INT32_MAX], and is the original minus 2^32 otherwise. *)
Theorem toAidlAudioConfig_reencodes (c : AudioConfig) :
  AudioConfig_wf c →
  let reencoded (x y : Z) :=
    is_int32 y ∧
    y `mod` 4294967296 = x ∧
    (∀ i, 0 ≤ i < 32 → Z.testbit y i = Z.testbit x i) ∧
    (x ≤ INT32_MAX → y = x) ∧
    (INT32_MAX < x → y = x - 4294967296) in
  reencoded (sampleRateHz c) (aidl_sampleRateHz (toAidlAudioConfig c)) ∧
  reencoded (format c) (aidl_format (toAidlAudioConfig c)) ∧
  reencoded (channelMask c) (aidl_channelMask (toAidlAudioConfig c)).
Proof.
  intros (Hr & Hm & Hf) reencoded. unfold reencoded. simpl.
  split_and!; by apply field_reencoded.
Qed.

Lemma toAidlAudioConfig_reencodes_witness :
  toAidlAudioConfig (mkAudioConfig 48000 3 1 [] 960) = mkAidlAudioConfig 1 48000 3 ∧
  aidl_sampleRateHz (toAidlAudioConfig (mkAudioConfig 48000 3 1 [] 960))
    = sampleRateHz (mkAudioConfig 48000 3 1 [] 960).
Proof.
  assert (AudioConfig_wf (mkAudioConfig 48000 3 1 [] 960)) as Hwf.
  { unfold AudioConfig_wf, is_uint32, UINT32_MAX. simpl. lia. }
  destruct (toAidlAudioConfig_reencodes _ Hwf) as ((_ & _ & _ & Heq & _) & _ & _).
  split; [reflexivity |]. apply Heq. unfold INT32_MAX. simpl. lia.
Defined.

(** ** Unsupported capabilities *)

(** C8 as stated fails for [getAudioPort]: the payload it hands back is the
    port it was given, not a fixed default. *)
Lemma getAudioPort_payload_is_the_argument :
  (getAudioPort (mkAudioPort 7 1 "bus0") (startup 20 40)).2
    = (NOT_SUPPORTED, mkAudioPort 7 1 "bus0") ∧
  (getAudioPort (mkAudioPort 7 1 "bus0") (startup 20 40)).2.2 ≠ AudioPort_default ∧
  (getAudioPort (mkAudioPort 7 1 "bus0") (startup 20 40)).2.2
    ≠ (getAudioPort (mkAudioPort 9 2 "bus1") (startup 20 40)).2.2.
Proof. split_and!; [reflexivity | discriminate | discriminate]. Qed.

(** C8, amended: in every state and for every argument, each unsupported
    operation returns NOT_SUPPORTED and leaves the state as it is.  Where a
    payload goes with the status it is 0, false or the empty list, except
    for two operations that hand back what they were given: [getAudioPort]
    returns the port of the request, and [openInputStream] returns the null
    stream together with the config of the request.  [setConnectedState]
    returns OK and leaves the state as it is. *)
Theorem unsupported_operations (p : Process) :
  (∀ volume, setMasterVolume volume p = (p, NOT_SUPPORTED)) ∧
  getMasterVolume p = (p, (NOT_SUPPORTED, float_zero)) ∧
  (∀ mute, setMicMute mute p = (p, NOT_SUPPORTED)) ∧
  getMicMute p = (p, (NOT_SUPPORTED, false)) ∧
  (∀ mute, setMasterMute mute p = (p, NOT_SUPPORTED)) ∧
  getMasterMute p = (p, (NOT_SUPPORTED, false)) ∧
  (∀ config, getInputBufferSize config p = (p, (NOT_SUPPORTED, 0))) ∧
  (∀ ioHandle device config flags sinkMetadata,
     openInputStream ioHandle device config flags sinkMetadata p
     = (p, (NOT_SUPPORTED, None, config))) ∧
  (∀ port, getAudioPort port p = (p, (NOT_SUPPORTED, port))) ∧
  (∀ config, setAudioPortConfig config p = (p, NOT_SUPPORTED)) ∧
  getHwAvSync p = (p, (NOT_SUPPORTED, 0)) ∧
  (∀ turnedOn, setScreenState turnedOn p = (p, NOT_SUPPORTED)) ∧
  (∀ context keys, getParameters context keys p = (p, (NOT_SUPPORTED, []))) ∧
  (∀ context parameters, setParameters context parameters p = (p, NOT_SUPPORTED)) ∧
  getMicrophones p = (p, (NOT_SUPPORTED, [])) ∧
  (∀ device effectId, addDeviceEffect device effectId p = (p, NOT_SUPPORTED)) ∧
  (∀ device effectId, removeDeviceEffect device effectId p = (p, NOT_SUPPORTED)) ∧
  (∀ address connected, setConnectedState address connected p = (p, OK)).
Proof. split_and!; reflexivity. Qed.

(** ** Patch handle registry: single calls *)

Lemma createAudioPatch_eq (sources sinks : list AudioPortConfig) (p : Process) :
  createAudioPatch sources sinks p =
    ({| gNextAudioPatchHandle := to_int32 (gNextAudioPatchHandle p + 1);
        dev := with_handles ({[gNextAudioPatchHandle p]} ∪ open_handles p) (dev p) |},
     (OK, gNextAudioPatchHandle p)).
Proof. reflexivity. Qed.

Lemma updateAudioPatch_absent (h : Z) (sources sinks : list AudioPortConfig)
    (p : Process) :
  h ∉ open_handles p →
  updateAudioPatch h sources sinks p = (p, (INVALID_ARGUMENTS, 0)).
Proof.
  intros Hh. unfold updateAudioPatch. rewrite set_erase_absent by done.
  simpl. by rewrite with_handles_same.
Qed.

Lemma updateAudioPatch_present (h : Z) (sources sinks : list AudioPortConfig)
    (p : Process) :
  h ∈ open_handles p →
  updateAudioPatch h sources sinks p =
    ({| gNextAudioPatchHandle := to_int32 (gNextAudioPatchHandle p + 1);
        dev := with_handles
                 ({[gNextAudioPatchHandle p]} ∪ (open_handles p ∖ {[h]})) (dev p) |},
     (OK, gNextAudioPatchHandle p)).
Proof. intros Hh. unfold updateAudioPatch. by rewrite set_erase_present. Qed.

(** C3, amended: when [h] is open and is not the value the generator holds,
    [updateAudioPatch h] returns OK with a handle [h'] different from [h];
    the open set loses [h] and gains [h']; a release of [h] then returns
    INVALID_ARGUMENTS and a release of [h'] returns OK. *)
Theorem updateAudioPatch_open (h : AudioPatchHandle)
    (sources sinks : list AudioPortConfig) (p : Process) :
  h ∈ open_handles p →
  gNextAudioPatchHandle p ≠ h →
  ∃ p' h',
    updateAudioPatch h sources sinks p = (p', (OK, h')) ∧
    h' ≠ h ∧
    open_handles p' = {[h']} ∪ (open_handles p ∖ {[h]}) ∧
    (h ∉ open_handles p') ∧
    h' ∈ open_handles p' ∧
    (releaseAudioPatch h p').2 = INVALID_ARGUMENTS ∧
    (releaseAudioPatch h' p').2 = OK.
Proof.
  intros Hopen Hnext.
  eexists _, _. split; [by apply updateAudioPatch_present |].
  set (p' := mkProcess _ _).
  assert (open_handles p' =
          {[gNextAudioPatchHandle p]} ∪ (open_handles p ∖ {[h]})) as Hset
    by reflexivity.
  assert (h ∉ open_handles p') as Hold.
  { rewrite Hset, elem_of_union, elem_of_singleton, elem_of_difference,
      elem_of_singleton. intros [Heq | [_ Hne]]; [by apply Hnext | by apply Hne]. }
  assert (gNextAudioPatchHandle p ∈ open_handles p') as Hnew.
  { rewrite Hset, elem_of_union, elem_of_singleton. by left. }
  split_and!; try done.
  - by rewrite releaseAudioPatch_absent.
  - by rewrite releaseAudioPatch_present.
Qed.

Lemma updateAudioPatch_open_witness :
  ∃ p', updateAudioPatch 1 [] [] (mkProcess 2 (mkDeviceImpl 20 40 {[1]}))
        = (p', (OK, 2)) ∧
        open_handles p' = {[2]} ∪ ({[1]} ∖ {[1]}) ∧
        (releaseAudioPatch 1 p').2 = INVALID_ARGUMENTS ∧
        (releaseAudioPatch 2 p').2 = OK.
Proof.
  assert (1 ∈ open_handles (mkProcess 2 (mkDeviceImpl 20 40 {[1]}))) as Hopen.
  { vm_compute. reflexivity. }
  assert (gNextAudioPatchHandle (mkProcess 2 (mkDeviceImpl 20 40 {[1]})) ≠ 1) as Hnext.
  { simpl. lia. }
  destruct (updateAudioPatch_open 1 [] [] _ Hopen Hnext)
    as (p' & h' & Hu & _ & Hset & _ & _ & Hr1 & Hr2).
  assert (h' = 2) as ->.
  { rewrite updateAudioPatch_present in Hu by done. by injection Hu as _ <-. }
  exists p'. split_and!; [exact Hu | exact Hset | exact Hr1 | exact Hr2].
Defined.

(** ** Patch handle registry: sequences of calls *)

Lemma run_cons (c : PatchCall) (cs : list PatchCall) (p : Process) :
  run (c :: cs) p =
    ((run cs (perform c p).1).1, (perform c p).2 :: (run cs (perform c p).1).2).
Proof. simpl. destruct (perform c p) as [p1 e]. simpl. by destruct (run cs p1). Qed.

Lemma run_app (cs1 cs2 : list PatchCall) (p : Process) :
  run (cs1 ++ cs2) p =
    ((run cs2 (run cs1 p).1).1, (run cs1 p).2 ++ (run cs2 (run cs1 p).1).2).
Proof.
  revert p. induction cs1 as [| c cs1 IH]; intros p.
  - simpl. by destruct (run cs2 p).
  - rewrite <- app_comm_cons, !run_cons, IH. reflexivity.
Qed.

Lemma allocated_app (tr1 tr2 : list PatchEvent) :
  allocated (tr1 ++ tr2) = allocated tr1 ++ allocated tr2.
Proof.
  induction tr1 as [| e tr1 IH]; [done |].
  destruct e as [r h | h r | h0 r h]; simpl; try destruct r; simpl; by rewrite ?IH.
Qed.

Lemma allocated_cons (e : PatchEvent) (tr : list PatchEvent) :
  allocated (e :: tr) = allocated [e] ++ allocated tr.
Proof. exact (allocated_app [e] tr). Qed.

Lemma allocating_calls_nonneg (cs : list PatchCall) : 0 ≤ allocating_calls cs.
Proof. induction cs as [| [] cs IH]; simpl; lia. Qed.

(** What one call does to the generator, the open set and the trace. *)
Lemma perform_effect (c : PatchCall) (p : Process) :
  (∀ h, retires (perform c p).2 h → h ∈ open_handles p) ∧
  (∀ r h, (perform c p).2 = EvCreate r h → r = OK) ∧
  ((allocated [(perform c p).2] = [] ∧
    gNextAudioPatchHandle (perform c p).1 = gNextAudioPatchHandle p ∧
    open_handles (perform c p).1 ⊆ open_handles p ∧
    ∀ cs, allocating_calls cs ≤ allocating_calls (c :: cs))
   ∨
   (allocated [(perform c p).2] = [gNextAudioPatchHandle p] ∧
    gNextAudioPatchHandle (perform c p).1 = to_int32 (gNextAudioPatchHandle p + 1) ∧
    open_handles (perform c p).1 ⊆ {[gNextAudioPatchHandle p]} ∪ open_handles p ∧
    ∀ cs, allocating_calls (c :: cs) = 1 + allocating_calls cs)).
Proof.
  destruct c as [sources sinks | patch | previousPatch sources sinks];
    unfold perform.
  - rewrite createAudioPatch_eq. simpl. split_and!.
    + intros h [Hr | [h' Hu]]; discriminate.
    + by intros r h [= <- _].
    + right. split_and!; by try done.
  - destruct (decide (patch ∈ open_handles p)) as [Hin | Hout].
    + rewrite releaseAudioPatch_present by done. simpl. split_and!.
      * intros h [[= <-] | [h' Hu]]; [done | discriminate].
      * intros r h Hc. discriminate.
      * left. split_and!; try done; try (intros cs; lia).
        unfold open_handles. simpl. by apply subseteq_difference_l.
    + rewrite releaseAudioPatch_absent by done. simpl. split_and!.
      * intros h [Hr | [h' Hu]]; discriminate.
      * intros r h Hc. discriminate.
      * left. split_and!; try done; try (intros cs; lia).
  - destruct (decide (previousPatch ∈ open_handles p)) as [Hin | Hout].
    + rewrite updateAudioPatch_present by done. simpl. split_and!.
      * intros h [Hr | [h' [= <- _]]]; [discriminate | done].
      * intros r h Hc. discriminate.
      * right. split_and!; try done.
        unfold open_handles. simpl. by apply union_mono_l, subseteq_difference_l.
    + rewrite updateAudioPatch_absent by done. simpl. split_and!.
      * intros h [Hr | [h' Hu]]; discriminate.
      * intros r h Hc. discriminate.
      * left. split_and!; try done; try (intros cs; lia).
Qed.

Lemma run_creates_ok (cs : list PatchCall) (p : Process) (r : Result) (h : Z) :
  EvCreate r h ∈ (run cs p).2 → r = OK.
Proof.
  revert p. induction cs as [| c cs IH]; intros p.
  - simpl. by intros ?%elem_of_nil.
  - rewrite run_cons. simpl. intros [Hhd | Htl]%elem_of_cons.
    + destruct (perform_effect c p) as (_ & Hok & _). by apply (Hok r h).
    + by apply (IH _ Htl).
Qed.

Lemma run_no_allocating_calls (cs : list PatchCall) (p : Process) :
  allocating_calls cs = 0 → allocated (run cs p).2 = [].
Proof.
  revert p. induction cs as [| c cs IH]; intros p Hz; [done |].
  rewrite run_cons. cbn [fst snd].
  pose proof (allocating_calls_nonneg cs) as Hnn.
  destruct (perform_effect c p) as (_ & _ & [(Ha & _ & _ & Hle) | (_ & _ & _ & Heq)]).
  - rewrite allocated_cons, Ha. simpl.
    apply IH. specialize (Hle cs). lia.
  - specialize (Heq cs). lia.
Qed.

Lemma allocated_suffix_nil (tr tr1 tr2 : list PatchEvent) (e : PatchEvent) :
  allocated tr = [] → tr = tr1 ++ e :: tr2 → allocated tr2 = [].
Proof.
  intros Hnil ->. rewrite allocated_app in Hnil.
  apply app_eq_nil in Hnil as [_ Hnil].
  rewrite allocated_cons in Hnil.
  by apply app_eq_nil in Hnil as [_ Hnil].
Qed.

Lemma StronglySorted_lt_NoDup (l : list Z) : StronglySorted Z.lt l → NoDup l.
Proof.
  induction 1 as [| x l Hs IH Hall]; [apply NoDup_nil_2 |].
  apply NoDup_cons_2; [| done].
  intros Hin. rewrite Forall_forall in Hall. specialize (Hall _ Hin). lia.
Qed.

Lemma below_lower_bound_not_elem (lo h : Z) (l : list Z) :
  Forall (λ x, lo ≤ x) l → h < lo → h ∉ l.
Proof.
  intros Hall Hlt Hin. rewrite Forall_forall in Hall.
  specialize (Hall _ Hin). lia.
Qed.

(** From a state whose open handles lie below the generator, and as long as
    the calls cannot take the generator past [INT32_MAX], the handles handed
    out start at the generator's value and go strictly up, and a handle
    taken out of the open set is not handed out by any later call. *)
Lemma run_allocations (cs : list PatchCall) :
  ∀ p : Process,
    below_generator p →
    is_int32 (gNextAudioPatchHandle p) →
    gNextAudioPatchHandle p + allocating_calls cs ≤ INT32_MAX + 1 →
    Forall (λ h, gNextAudioPatchHandle p ≤ h
                 < gNextAudioPatchHandle p + allocating_calls cs)
           (allocated (run cs p).2) ∧
    StronglySorted Z.lt (allocated (run cs p).2) ∧
    (∀ tr1 e tr2 h,
       (run cs p).2 = tr1 ++ e :: tr2 → retires e h → h ∉ allocated tr2).
Proof.
  induction cs as [| c cs IH]; intros p Hbelow Hrange Hbound.
  { simpl. split_and!; [constructor | constructor |].
    intros [| e1 tr1] e tr2 h Heq; discriminate. }
  rewrite run_cons. cbn [fst snd].
  pose proof (allocating_calls_nonneg cs) as Hnn.
  destruct (perform_effect c p)
    as (Hret & _ & [(Ha & Hn & Hsub & Hle) | (Ha & Hn & Hsub & Hone)]).
  - (* the call takes nothing from the generator *)
    specialize (Hle cs).
    destruct (IH (perform c p).1) as (HF & HS & HR).
    { intros h Hh. rewrite Hn. apply Hbelow, Hsub, Hh. }
    { by rewrite Hn. }
    { rewrite Hn. lia. }
    rewrite Hn in HF. rewrite allocated_cons, Ha. cbn [app]. split_and!; try done.
    + eapply Forall_impl; [exact HF |]. cbv beta. lia.
    + intros [| e1 tr1] e tr2 h [= He Htl] Hr.
      * subst. eapply below_lower_bound_not_elem.
        -- eapply Forall_impl; [exact HF |]. cbv beta. intros x Hx. apply Hx.
        -- by apply Hbelow, Hret.
      * by eapply HR.
  - (* the call takes the generator's value *)
    specialize (Hone cs).
    rewrite allocated_cons, Ha. cbn [app].
    destruct (decide (allocating_calls cs = 0)) as [Hzero | Hmore].
    + pose proof (run_no_allocating_calls cs (perform c p).1 Hzero) as Hnil.
      rewrite Hnil. split_and!.
      * constructor; [lia | constructor].
      * by repeat constructor.
      * intros [| e1 tr1] e tr2 h [= He Htl] Hr.
        -- rewrite <- Htl, Hnil. apply not_elem_of_nil.
        -- rewrite (allocated_suffix_nil _ _ _ _ Hnil Htl). apply not_elem_of_nil.
    + assert (to_int32 (gNextAudioPatchHandle p + 1) = gNextAudioPatchHandle p + 1)
        as Hstep.
      { apply to_int32_id. unfold is_int32, INT32_MIN, INT32_MAX in *. lia. }
      rewrite Hstep in Hn.
      destruct (IH (perform c p).1) as (HF & HS & HR).
      { intros h Hh. rewrite Hn. apply Hsub in Hh.
        apply elem_of_union in Hh as [->%elem_of_singleton | Hh]; [lia |].
        apply Hbelow in Hh. lia. }
      { rewrite Hn. unfold is_int32, INT32_MIN, INT32_MAX in *. lia. }
      { rewrite Hn. lia. }
      rewrite Hn in HF. split_and!.
      * constructor; [lia |]. eapply Forall_impl; [exact HF |]. cbv beta. lia.
      * constructor; [done |]. eapply Forall_impl; [exact HF |]. cbv beta. lia.
      * intros [| e1 tr1] e tr2 h [= He Htl] Hr.
        -- subst. eapply below_lower_bound_not_elem.
           ++ eapply Forall_impl; [exact HF |]. cbv beta. intros x Hx. apply Hx.
           ++ apply Hret, Hbelow in Hr. lia.
        -- by eapply HR.
Qed.

(** C1, amended: from process start, for every sequence of create, release
    and update calls of which at most [INT32_MAX] are creates or updates,
    every create returns OK, the handles handed out (by the creates and by
    the updates that succeed) are positive, strictly increasing in call
    order, hence pairwise distinct, and a handle that a release or an update
    has taken out of the open set is not handed out by any later call. *)
Theorem patch_handles_strictly_increasing (bufferSizeMs latencyMs : Z)
    (cs : list PatchCall) :
  allocating_calls cs ≤ INT32_MAX →
  (∀ r h, EvCreate r h ∈ (run cs (startup bufferSizeMs latencyMs)).2 → r = OK) ∧
  StronglySorted Z.lt (allocated (run cs (startup bufferSizeMs latencyMs)).2) ∧
  NoDup (allocated (run cs (startup bufferSizeMs latencyMs)).2) ∧
  Forall (λ h, 1 ≤ h ≤ INT32_MAX)
         (allocated (run cs (startup bufferSizeMs latencyMs)).2) ∧
  (∀ tr1 e tr2 h,
     (run cs (startup bufferSizeMs latencyMs)).2 = tr1 ++ e :: tr2 →
     retires e h → h ∉ allocated tr2).
Proof.
  intros Hbound.
  destruct (run_allocations cs (startup bufferSizeMs latencyMs)) as (HF & HS & HR).
  { intros h Hh. by apply elem_of_empty in Hh. }
  { unfold is_int32, INT32_MIN, INT32_MAX. simpl. lia. }
  { simpl. lia. }
  split_and!; try done.
  - intros r h. apply run_creates_ok.
  - by apply StronglySorted_lt_NoDup.
  - eapply Forall_impl; [exact HF |]. simpl. lia.
Qed.

Lemma patch_handles_strictly_increasing_witness :
  StronglySorted Z.lt
    (allocated (run [CallCreate [] []; CallCreate [] []; CallRelease 1;
                     CallRelease 1; CallCreate [] []] (startup 20 40)).2) ∧
  allocated (run [CallCreate [] []; CallCreate [] []; CallRelease 1;
                  CallRelease 1; CallCreate [] []] (startup 20 40)).2 = [1; 2; 3].
Proof.
  assert (allocating_calls [CallCreate [] []; CallCreate [] []; CallRelease 1;
                            CallRelease 1; CallCreate [] []] ≤ INT32_MAX) as Hbound.
  { unfold INT32_MAX. simpl. lia. }
  destruct (patch_handles_strictly_increasing 20 40 _ Hbound) as (_ & Hsorted & _).
  split; [exact Hsorted | reflexivity].
Defined.

(** States reached before the generator passes [INT32_MAX] keep every open
    handle below the generator, so the generator's value is never open. *)
Lemma run_below_generator (cs : list PatchCall) :
  ∀ p : Process,
    below_generator p →
    is_int32 (gNextAudioPatchHandle p) →
    gNextAudioPatchHandle p + allocating_calls cs ≤ INT32_MAX →
    below_generator (run cs p).1 ∧
    gNextAudioPatchHandle p ≤ gNextAudioPatchHandle (run cs p).1
      ≤ gNextAudioPatchHandle p + allocating_calls cs.
Proof.
  induction cs as [| c cs IH]; intros p Hbelow Hrange Hbound.
  { simpl. split; [done | lia]. }
  rewrite run_cons. cbn [fst snd].
  pose proof (allocating_calls_nonneg cs) as Hnn.
  destruct (perform_effect c p)
    as (_ & _ & [(_ & Hn & Hsub & Hle) | (_ & Hn & Hsub & Hone)]).
  - specialize (Hle cs).
    destruct (IH (perform c p).1) as (Hb & Hg).
    { intros h Hh. rewrite Hn. apply Hbelow, Hsub, Hh. }
    { by rewrite Hn. }
    { rewrite Hn. lia. }
    split; [done | lia].
  - specialize (Hone cs).
    assert (to_int32 (gNextAudioPatchHandle p + 1) = gNextAudioPatchHandle p + 1)
      as Hstep.
    { apply to_int32_id. unfold is_int32, INT32_MIN, INT32_MAX in *. lia. }
    rewrite Hstep in Hn.
    destruct (IH (perform c p).1) as (Hb & Hg).
    { intros h Hh. rewrite Hn. apply Hsub in Hh.
      apply elem_of_union in Hh as [->%elem_of_singleton | Hh]; [lia |].
      apply Hbelow in Hh. lia. }
    { rewrite Hn. unfold is_int32, INT32_MIN, INT32_MAX in *. lia. }
    { rewrite Hn. lia. }
    split; [done | lia].
Qed.

Lemma startup_generator_not_open (bufferSizeMs latencyMs : Z)
    (cs : list PatchCall) (h : Z) :
  allocating_calls cs < INT32_MAX →
  h ∈ open_handles (run cs (startup bufferSizeMs latencyMs)).1 →
  gNextAudioPatchHandle (run cs (startup bufferSizeMs latencyMs)).1 ≠ h.
Proof.
  intros Hbound Hopen.
  destruct (run_below_generator cs (startup bufferSizeMs latencyMs)) as (Hb & _).
  { intros k Hk. by apply elem_of_empty in Hk. }
  { unfold is_int32, INT32_MIN, INT32_MAX. simpl. lia. }
  { simpl. lia. }
  apply Hb in Hopen. lia.
Qed.

(** ** The generator at the end of its range *)

Lemma to_int32_add_l (a b : Z) : to_int32 (to_int32 a + b) = to_int32 (a + b).
Proof. unfold to_int32. Z.div_mod_to_equations. lia. Qed.

Lemma perform_create (sources sinks : list AudioPortConfig) (p : Process) :
  perform (CallCreate sources sinks) p =
    ({| gNextAudioPatchHandle := to_int32 (gNextAudioPatchHandle p + 1);
        dev := with_handles ({[gNextAudioPatchHandle p]} ∪ open_handles p) (dev p) |},
     EvCreate OK (gNextAudioPatchHandle p)).
Proof. reflexivity. Qed.

Lemma perform_update_present (h : Z) (sources sinks : list AudioPortConfig)
    (p : Process) :
  h ∈ open_handles p →
  perform (CallUpdate h sources sinks) p =
    ({| gNextAudioPatchHandle := to_int32 (gNextAudioPatchHandle p + 1);
        dev := with_handles
                 ({[gNextAudioPatchHandle p]} ∪ (open_handles p ∖ {[h]})) (dev p) |},
     EvUpdate h OK (gNextAudioPatchHandle p)).
Proof. intros Hh. unfold perform. by rewrite updateAudioPatch_present. Qed.

Lemma run_creates_generator (n : nat) :
  ∀ p : Process,
    is_int32 (gNextAudioPatchHandle p) →
    gNextAudioPatchHandle (run (replicate n (CallCreate [] [])) p).1
    = to_int32 (gNextAudioPatchHandle p + Z.of_nat n).
Proof.
  induction n as [| n IH]; intros p Hrange.
  - cbn [replicate run fst]. rewrite Z.add_0_r.
    symmetry. by apply to_int32_id.
  - cbn [replicate]. rewrite run_cons, perform_create. cbn [fst].
    rewrite IH by apply to_int32_range. cbn [gNextAudioPatchHandle].
    rewrite to_int32_add_l. f_equal. lia.
Qed.

Lemma run_single_create (sources sinks : list AudioPortConfig) (p : Process) :
  (run [CallCreate sources sinks] p).2 = [EvCreate OK (gNextAudioPatchHandle p)].
Proof. reflexivity. Qed.

Lemma creates_past_the_range (N : nat) :
  Z.of_nat N = 2147483646 →
  ∃ l, allocated
         (run (CallCreate [] [] :: replicate N (CallCreate [] []) ++ [CallCreate [] []])
              (startup 20 40)).2
       = 1 :: l ++ [-2147483648].
Proof.
  intros HZ.
  rewrite run_cons, perform_create. cbn [fst snd].
  rewrite run_app. cbn [snd].
  rewrite run_single_create, run_creates_generator by apply to_int32_range.
  cbn [gNextAudioPatchHandle startup]. rewrite HZ.
  rewrite allocated_cons, allocated_app. cbn [allocated app].
  eexists. reflexivity.
Qed.

(** C1 as stated fails once the generator has handed out [INT32_MAX]: the
    create that follows the 2147483647th returns -2147483648, below every
    handle returned before it. *)
Lemma handles_fall_past_the_range :
  (∃ l, allocated (run calls_past_the_range (startup 20 40)).2
        = 1 :: l ++ [-2147483648]) ∧
  ¬ StronglySorted Z.lt (allocated (run calls_past_the_range (startup 20 40)).2).
Proof.
  assert (∃ l, allocated (run calls_past_the_range (startup 20 40)).2
               = 1 :: l ++ [-2147483648]) as Hshape.
  { apply (creates_past_the_range (Z.to_nat 2147483646)), Z2Nat.id. lia. }
  split; [exact Hshape |].
  destruct Hshape as [l ->]. intros Hsorted.
  apply StronglySorted_inv in Hsorted as [_ Hall].
  apply Forall_app in Hall as [_ Hlast].
  rewrite Forall_singleton in Hlast. lia.
Qed.

Lemma to_int32_not_one (z : Z) : 2 ≤ z ≤ UINT32_MAX → to_int32 z ≠ 1.
Proof. unfold to_int32, UINT32_MAX. intros. Z.div_mod_to_equations. lia. Qed.

(** A chain of updates keeps handle 1 open next to the handle the last
    update returned, while the generator walks through the 32-bit range. *)
Lemma run_update_chain (n : nat) :
  ∀ (start : Z) (p : Process),
    2 ≤ start →
    start + Z.of_nat n ≤ 4294967296 →
    open_handles p = {[1; to_int32 start]} →
    gNextAudioPatchHandle p = to_int32 (start + 1) →
    open_handles (run (update_chain start n) p).1
      = {[1; to_int32 (start + Z.of_nat n)]} ∧
    gNextAudioPatchHandle (run (update_chain start n) p).1
      = to_int32 (start + Z.of_nat n + 1).
Proof.
  induction n as [| n IH]; intros start p Hstart Hbound Hopen Hnext.
  - cbn [update_chain run fst]. by rewrite Z.add_0_r.
  - cbn [update_chain]. rewrite run_cons.
    assert (to_int32 start ∈ open_handles p) as Hin.
    { rewrite Hopen, elem_of_union, !elem_of_singleton. by right. }
    rewrite perform_update_present by done. cbn [fst].
    replace (start + Z.of_nat (S n)) with (start + 1 + Z.of_nat n) by lia.
    apply IH; [lia | lia | |].
    + unfold open_handles at 1. cbn [dev with_handles mAudioPatchHandles].
      rewrite Hopen, Hnext.
      assert (to_int32 start ≠ 1) as Hne.
      { apply to_int32_not_one. unfold UINT32_MAX. lia. }
      apply leibniz_equiv. intros x.
      rewrite !elem_of_union, elem_of_difference, elem_of_union, !elem_of_singleton.
      split.
      * intros [-> | [[-> | ->] Hx]]; [by right | by left | done].
      * intros [-> | ->]; [right; split; [by left | by intros Heq] | by left].
    + cbn [gNextAudioPatchHandle]. rewrite Hnext. apply to_int32_idemp_succ.
Qed.

Lemma update_chain_around_the_range (N : nat) :
  Z.of_nat N = 4294967294 →
  open_handles
    (run (CallCreate [] [] :: CallCreate [] [] :: update_chain 2 N)
         (startup 20 40)).1 = {[1; 0]} ∧
  gNextAudioPatchHandle
    (run (CallCreate [] [] :: CallCreate [] [] :: update_chain 2 N)
         (startup 20 40)).1 = 1.
Proof.
  intros HZ.
  do 2 rewrite run_cons, perform_create. cbn [fst].
  destruct (run_update_chain N 2
              (mkProcess (to_int32 (to_int32 (1 + 1) + 1))
                 (with_handles
                    ({[to_int32 (1 + 1)]} ∪ ({[1]} ∪ ∅))
                    (with_handles ({[1]} ∪ ∅) (dev (startup 20 40))))))
    as [Ho Hn]; [lia | lia | | |].
  - vm_compute. reflexivity.
  - vm_compute. reflexivity.
  - rewrite HZ in Ho, Hn. split; [exact Ho | exact Hn].
Qed.

Lemma calls_around_the_range_state :
  open_handles (run calls_around_the_range (startup 20 40)).1 = {[1; 0]} ∧
  gNextAudioPatchHandle (run calls_around_the_range (startup 20 40)).1 = 1.
Proof. apply (update_chain_around_the_range (Z.to_nat 4294967294)), Z2Nat.id. lia. Qed.

(** C3 as stated fails in a state the calls reach: after two creates and
    4294967294 updates of the second patch, handle 1 is still open and the
    generator is back at 1; the update of handle 1 then returns handle 1
    itself, and the release of handle 1 that follows returns OK. *)
Lemma update_returns_the_replaced_handle :
  1 ∈ open_handles (run calls_around_the_range (startup 20 40)).1 ∧
  (updateAudioPatch 1 [] [] (run calls_around_the_range (startup 20 40)).1).2
    = (OK, 1) ∧
  (releaseAudioPatch 1
     (updateAudioPatch 1 [] [] (run calls_around_the_range (startup 20 40)).1).1).2
    = OK.
Proof.
  destruct calls_around_the_range_state as [Hopen Hnext].
  remember (run calls_around_the_range (startup 20 40)).1 as q eqn:Hq.
  clear Hq.
  assert (1 ∈ open_handles q) as Hin.
  { rewrite Hopen, elem_of_union, !elem_of_singleton. by left. }
  split; [exact Hin |].
  rewrite (updateAudioPatch_present 1 [] [] q Hin). cbn [fst snd]. rewrite Hnext.
  split; [reflexivity |].
  rewrite releaseAudioPatch_present; [reflexivity |].
  unfold open_handles. cbn [dev with_handles mAudioPatchHandles].
  rewrite elem_of_union, elem_of_singleton. by left.
Qed.

(** * Further properties of the registry *)

(** X1: on an open handle, [updateAudioPatch] is [releaseAudioPatch]
    followed by [createAudioPatch]: same state, same handle.  On a handle
    that is not open the two differ: the update leaves the state alone,
    while a release followed by a create still hands out the generator's
    value. *)
Theorem updateAudioPatch_is_release_then_create (h : AudioPatchHandle)
    (sources sinks : list AudioPortConfig) (p : Process) :
  (h ∈ open_handles p →
     updateAudioPatch h sources sinks p
     = createAudioPatch sources sinks (releaseAudioPatch h p).1) ∧
  (h ∉ open_handles p →
     updateAudioPatch h sources sinks p = (p, (INVALID_ARGUMENTS, 0)) ∧
     createAudioPatch sources sinks (releaseAudioPatch h p).1
     = createAudioPatch sources sinks p ∧
     (createAudioPatch sources sinks p).2 = (OK, gNextAudioPatchHandle p)).
Proof.
  split.
  - intros Hin. rewrite updateAudioPatch_present, releaseAudioPatch_present by done.
    reflexivity.
  - intros Hout.
    rewrite updateAudioPatch_absent, releaseAudioPatch_absent by done.
    done.
Qed.

(** X2: a create followed by the release of the handle it returned gives
    back the open set there was, as long as the generator's value was not
    open; only the generator has moved. *)
Theorem create_then_release_restores (sources sinks : list AudioPortConfig)
    (p : Process) :
  gNextAudioPatchHandle p ∉ open_handles p →
  ∃ p1 h p2,
    createAudioPatch sources sinks p = (p1, (OK, h)) ∧
    releaseAudioPatch h p1 = (p2, OK) ∧
    open_handles p2 = open_handles p ∧
    dev p2 = dev p ∧
    gNextAudioPatchHandle p2 = to_int32 (gNextAudioPatchHandle p + 1).
Proof.
  intros Hfresh. eexists _, _, _.
  rewrite createAudioPatch_eq. split; [reflexivity |].
  rewrite releaseAudioPatch_present.
  2:{ unfold open_handles. cbn [dev with_handles mAudioPatchHandles].
      rewrite elem_of_union, elem_of_singleton. by left. }
  split; [reflexivity |].
  unfold open_handles in *. cbn [dev with_handles mAudioPatchHandles gNextAudioPatchHandle].
  assert (({[gNextAudioPatchHandle p]} ∪ mAudioPatchHandles (dev p))
            ∖ {[gNextAudioPatchHandle p]} = mAudioPatchHandles (dev p)) as ->.
  { apply leibniz_equiv. intros x.
    rewrite elem_of_difference, elem_of_union, elem_of_singleton.
    split.
    - intros [[-> | Hx] Hne]; done.
    - intros Hx. split; [by right | by intros ->]. }
  split_and!; try done.
  by destruct p as [n [b l hs]].
Qed.

Lemma create_then_release_restores_witness :
  ∃ p1 h p2,
    createAudioPatch [] [] (mkProcess 5 (mkDeviceImpl 20 40 {[2; 4]})) = (p1, (OK, h)) ∧
    releaseAudioPatch h p1 = (p2, OK) ∧
    open_handles p2 = open_handles (mkProcess 5 (mkDeviceImpl 20 40 {[2; 4]})) ∧
    dev p2 = dev (mkProcess 5 (mkDeviceImpl 20 40 {[2; 4]})) ∧
    gNextAudioPatchHandle p2
    = to_int32 (gNextAudioPatchHandle (mkProcess 5 (mkDeviceImpl 20 40 {[2; 4]})) + 1).
Proof.
  apply (create_then_release_restores [] [] (mkProcess 5 (mkDeviceImpl 20 40 {[2; 4]}))).
  unfold open_handles. simpl.
  rewrite elem_of_union, !elem_of_singleton. lia.
Defined.

Lemma retired_app (tr1 tr2 : list PatchEvent) :
  retired (tr1 ++ tr2) = retired tr1 ++ retired tr2.
Proof.
  induction tr1 as [| e tr1 IH]; [done |].
  destruct e as [r h | h r | h0 r h]; simpl; try destruct r; simpl; by rewrite ?IH.
Qed.

Lemma retired_cons (e : PatchEvent) (tr : list PatchEvent) :
  retired (e :: tr) = retired [e] ++ retired tr.
Proof. exact (retired_app [e] tr). Qed.

(** The state one call leaves, when the generator does not pass
    [INT32_MAX]: the generator is still in range and above the open
    handles. *)
Lemma perform_keeps_below (c : PatchCall) (cs : list PatchCall) (p : Process) :
  below_generator p →
  is_int32 (gNextAudioPatchHandle p) →
  gNextAudioPatchHandle p + allocating_calls (c :: cs) ≤ INT32_MAX →
  below_generator (perform c p).1 ∧
  is_int32 (gNextAudioPatchHandle (perform c p).1) ∧
  gNextAudioPatchHandle p ≤ gNextAudioPatchHandle (perform c p).1 ∧
  gNextAudioPatchHandle (perform c p).1 + allocating_calls cs ≤ INT32_MAX ∧
  gNextAudioPatchHandle (perform c p).1
  = gNextAudioPatchHandle p + Z.of_nat (length (allocated [(perform c p).2])).
Proof.
  intros Hbelow Hrange Hbound.
  pose proof (allocating_calls_nonneg cs) as Hnn.
  destruct (perform_effect c p)
    as (_ & _ & [(Ha & Hn & Hsub & Hle) | (Ha & Hn & Hsub & Hone)]).
  - specialize (Hle cs). rewrite Hn, Ha. cbn [length]. split_and!; try done; try lia.
    intros h Hh. rewrite Hn. apply Hbelow, Hsub, Hh.
  - specialize (Hone cs).
    assert (to_int32 (gNextAudioPatchHandle p + 1) = gNextAudioPatchHandle p + 1)
      as Hstep.
    { apply to_int32_id. unfold is_int32, INT32_MIN, INT32_MAX in *. lia. }
    rewrite Hstep in Hn. rewrite Hn, Ha. cbn [length].
    split_and!; try lia.
    + intros h Hh. rewrite Hn. apply Hsub in Hh.
      apply elem_of_union in Hh as [->%elem_of_singleton | Hh]; [lia |].
      apply Hbelow in Hh. lia.
    + unfold is_int32, INT32_MIN, INT32_MAX in *. lia.
Qed.

Lemma run_consecutive (cs : list PatchCall) :
  ∀ p : Process,
    below_generator p →
    is_int32 (gNextAudioPatchHandle p) →
    gNextAudioPatchHandle p + allocating_calls cs ≤ INT32_MAX →
    allocated (run cs p).2
    = seqZ (gNextAudioPatchHandle p) (Z.of_nat (length (allocated (run cs p).2))) ∧
    gNextAudioPatchHandle (run cs p).1
    = gNextAudioPatchHandle p + Z.of_nat (length (allocated (run cs p).2)).
Proof.
  induction cs as [| c cs IH]; intros p Hbelow Hrange Hbound.
  { cbn [run fst snd allocated length]. split; [reflexivity | lia]. }
  rewrite run_cons. cbn [fst snd].
  destruct (perform_keeps_below c cs p Hbelow Hrange Hbound)
    as (Hb1 & Hr1 & _ & Hbd1 & Hn1).
  destruct (IH (perform c p).1 Hb1 Hr1 Hbd1) as (Hseq & Hnext).
  rewrite allocated_cons, length_app, Nat2Z.inj_add.
  split; [| lia].
  destruct (perform_effect c p) as (_ & _ & [(Ha & Hn & _) | (Ha & Hn & _)]).
  - rewrite Ha in *. cbn [app length] in *. rewrite Z.add_0_l.
    rewrite Hn1, Z.add_0_r in Hseq. exact Hseq.
  - rewrite Ha in *. cbn [app length] in *.
    rewrite (seqZ_cons (gNextAudioPatchHandle p)) by lia.
    f_equal. rewrite Hn1 in Hseq.
    replace (Z.pred (Z.of_nat 1 + _)) with
      (Z.of_nat (length (allocated (run cs (perform c p).1).2))) by lia.
    exact Hseq.
Qed.

(** X3: from process start, while fewer than [INT32_MAX] of the calls are
    creates or updates, the handles handed out are 1, 2, 3, ... without a
    gap, and the generator ends at one more than their number: a release, a
    failed release and a failed update take nothing from the generator. *)
Theorem handles_are_consecutive (bufferSizeMs latencyMs : Z) (cs : list PatchCall) :
  allocating_calls cs < INT32_MAX →
  allocated (run cs (startup bufferSizeMs latencyMs)).2
  = seqZ 1 (Z.of_nat (length (allocated (run cs (startup bufferSizeMs latencyMs)).2))) ∧
  gNextAudioPatchHandle (run cs (startup bufferSizeMs latencyMs)).1
  = 1 + Z.of_nat (length (allocated (run cs (startup bufferSizeMs latencyMs)).2)).
Proof.
  intros Hbound.
  apply (run_consecutive cs (startup bufferSizeMs latencyMs)).
  - intros h Hh. by apply elem_of_empty in Hh.
  - unfold is_int32, INT32_MIN, INT32_MAX. simpl. lia.
  - simpl. lia.
Qed.

Lemma handles_are_consecutive_witness :
  allocated (run [CallCreate [] []; CallUpdate 9 [] []; CallRelease 1;
                  CallUpdate 1 [] []; CallCreate [] []; CallUpdate 2 [] []]
                 (startup 20 40)).2 = [1; 2; 3] ∧
  gNextAudioPatchHandle
    (run [CallCreate [] []; CallUpdate 9 [] []; CallRelease 1;
          CallUpdate 1 [] []; CallCreate [] []; CallUpdate 2 [] []]
         (startup 20 40)).1 = 4.
Proof.
  assert (allocating_calls [CallCreate [] []; CallUpdate 9 [] []; CallRelease 1;
            CallUpdate 1 [] []; CallCreate [] []; CallUpdate 2 [] []] < INT32_MAX)
    as Hbound.
  { unfold INT32_MAX. simpl. lia. }
  destruct (handles_are_consecutive 20 40 _ Hbound) as [Hseq Hnext].
  split; [rewrite Hseq | rewrite Hnext]; reflexivity.
Defined.

Lemma perform_release_present (h : Z) (p : Process) :
  h ∈ open_handles p →
  perform (CallRelease h) p =
    ({| gNextAudioPatchHandle := gNextAudioPatchHandle p;
        dev := with_handles (open_handles p ∖ {[h]}) (dev p) |}, EvRelease h OK).
Proof. intros Hh. unfold perform. by rewrite releaseAudioPatch_present. Qed.

Lemma perform_release_absent (h : Z) (p : Process) :
  h ∉ open_handles p →
  perform (CallRelease h) p = (p, EvRelease h INVALID_ARGUMENTS).
Proof. intros Hh. unfold perform. by rewrite releaseAudioPatch_absent. Qed.

Lemma perform_update_absent (h : Z) (sources sinks : list AudioPortConfig)
    (p : Process) :
  h ∉ open_handles p →
  perform (CallUpdate h sources sinks) p = (p, EvUpdate h INVALID_ARGUMENTS 0).
Proof. intros Hh. unfold perform. by rewrite updateAudioPatch_absent. Qed.

(** The open set one call leaves, in terms of what its event hands out and
    takes out. *)
Lemma perform_open_set (c : PatchCall) (p : Process) :
  gNextAudioPatchHandle p ∉ open_handles p →
  (∀ h, h ∈ retired [(perform c p).2] → h ∈ open_handles p) ∧
  (∀ h, h ∈ open_handles (perform c p).1 ↔
        (h ∈ open_handles p ∨ h ∈ allocated [(perform c p).2]) ∧
        h ∉ retired [(perform c p).2]).
Proof.
  intros Hfresh.
  destruct c as [sources sinks | patch | previousPatch sources sinks].
  - rewrite perform_create. cbn [fst snd allocated retired]. split.
    + by intros h ?%elem_of_nil.
    + intros h. unfold open_handles at 1. cbn [dev with_handles mAudioPatchHandles].
      rewrite elem_of_union, !elem_of_singleton, list_elem_of_singleton.
      pose proof (not_elem_of_nil h). tauto.
  - destruct (decide (patch ∈ open_handles p)) as [Hin | Hout].
    + rewrite perform_release_present by done. cbn [fst snd allocated retired]. split.
      * by intros h ->%list_elem_of_singleton.
      * intros h. unfold open_handles at 1. cbn [dev with_handles mAudioPatchHandles].
        rewrite elem_of_difference, elem_of_singleton, list_elem_of_singleton.
        pose proof (not_elem_of_nil h). tauto.
    + rewrite perform_release_absent by done. cbn [fst snd allocated retired]. split.
      * by intros h ?%elem_of_nil.
      * intros h. pose proof (not_elem_of_nil h). tauto.
  - destruct (decide (previousPatch ∈ open_handles p)) as [Hin | Hout].
    + rewrite perform_update_present by done. cbn [fst snd allocated retired]. split.
      * by intros h ->%list_elem_of_singleton.
      * intros h. unfold open_handles at 1. cbn [dev with_handles mAudioPatchHandles].
        rewrite elem_of_union, elem_of_difference, !elem_of_singleton,
          !list_elem_of_singleton.
        assert (h = gNextAudioPatchHandle p → h ≠ previousPatch) by (by intros -> <-).
        tauto.
    + rewrite perform_update_absent by done. cbn [fst snd allocated retired]. split.
      * by intros h ?%elem_of_nil.
      * intros h. pose proof (not_elem_of_nil h). tauto.
Qed.

Lemma run_open_set (cs : list PatchCall) :
  ∀ p : Process,
    below_generator p →
    is_int32 (gNextAudioPatchHandle p) →
    gNextAudioPatchHandle p + allocating_calls cs ≤ INT32_MAX →
    ∀ h, h ∈ open_handles (run cs p).1 ↔
         (h ∈ open_handles p ∨ h ∈ allocated (run cs p).2) ∧
         h ∉ retired (run cs p).2.
Proof.
  induction cs as [| c cs IH]; intros p Hbelow Hrange Hbound h.
  { cbn [run fst snd allocated retired]. pose proof (not_elem_of_nil h). tauto. }
  rewrite run_cons. cbn [fst snd].
  destruct (perform_keeps_below c cs p Hbelow Hrange Hbound)
    as (Hb1 & Hr1 & Hge & Hbd1 & _).
  assert (gNextAudioPatchHandle p ∉ open_handles p) as Hfresh.
  { intros Hin. apply Hbelow in Hin. lia. }
  destruct (perform_open_set c p Hfresh) as (Hret & Hstep).
  destruct (run_allocations cs (perform c p).1 Hb1 Hr1) as (HF & _); [lia |].
  assert (h ∈ retired [(perform c p).2] →
          h ∉ allocated (run cs (perform c p).1).2) as Hsep.
  { intros Hr. eapply below_lower_bound_not_elem.
    - eapply Forall_impl; [exact HF |]. cbv beta. intros x Hx. apply Hx.
    - apply Hret, Hbelow in Hr. lia. }
  rewrite (IH (perform c p).1 Hb1 Hr1 Hbd1 h), (Hstep h).
  rewrite (allocated_cons _ (run cs (perform c p).1).2),
    (retired_cons _ (run cs (perform c p).1).2), !elem_of_app.
  tauto.
Qed.

(** X4: from process start, while fewer than [INT32_MAX] of the calls are
    creates or updates, the handles left open are exactly the handles handed
    out that no successful release or update has taken out since. *)
Theorem open_handles_are_allocated_minus_retired (bufferSizeMs latencyMs : Z)
    (cs : list PatchCall) (h : AudioPatchHandle) :
  allocating_calls cs < INT32_MAX →
  (h ∈ open_handles (run cs (startup bufferSizeMs latencyMs)).1 ↔
   h ∈ allocated (run cs (startup bufferSizeMs latencyMs)).2 ∧
   h ∉ retired (run cs (startup bufferSizeMs latencyMs)).2).
Proof.
  intros Hbound.
  rewrite (run_open_set cs (startup bufferSizeMs latencyMs)).
  - assert (h ∉ open_handles (startup bufferSizeMs latencyMs)) by apply not_elem_of_empty.
    tauto.
  - intros k Hk. by apply elem_of_empty in Hk.
  - unfold is_int32, INT32_MIN, INT32_MAX. simpl. lia.
  - simpl. lia.
Qed.

Lemma open_handles_are_allocated_minus_retired_witness :
  2 ∈ open_handles
        (run [CallCreate [] []; CallCreate [] []; CallRelease 1] (startup 20 40)).1 ∧
  1 ∉ open_handles
        (run [CallCreate [] []; CallCreate [] []; CallRelease 1] (startup 20 40)).1.
Proof.
  assert (allocating_calls [CallCreate [] []; CallCreate [] []; CallRelease 1]
          < INT32_MAX) as Hbound.
  { unfold INT32_MAX. simpl. lia. }
  split.
  - apply (open_handles_are_allocated_minus_retired 20 40 _ 2 Hbound).
    simpl. split; apply (bool_decide_unpack _); vm_compute; exact I.
  - rewrite (open_handles_are_allocated_minus_retired 20 40 _ 1 Hbound).
    simpl. intros [_ Hn]. apply Hn. apply (bool_decide_unpack _). vm_compute. exact I.
Defined.



(** X6: how each call changes the number of open patches, in a state where
    the generator's value is not open: a create adds one, a successful
    release removes one, a successful update keeps the number, and a release
    or update of a handle that is not open changes nothing. *)
Theorem open_count_effects (h : AudioPatchHandle)
    (sources sinks : list AudioPortConfig) (p : Process) :
  gNextAudioPatchHandle p ∉ open_handles p →
  size (open_handles (createAudioPatch sources sinks p).1) = S (size (open_handles p)) ∧
  (h ∈ open_handles p →
     S (size (open_handles (releaseAudioPatch h p).1)) = size (open_handles p) ∧
     size (open_handles (updateAudioPatch h sources sinks p).1)
     = size (open_handles p)) ∧
  (h ∉ open_handles p →
     size (open_handles (releaseAudioPatch h p).1) = size (open_handles p) ∧
     size (open_handles (updateAudioPatch h sources sinks p).1)
     = size (open_handles p)).
Proof.
  intros Hfresh.
  assert (∀ (x : Z) (X : gset Z), x ∉ X → size ({[x]} ∪ X) = S (size X)) as Hadd.
  { intros x X Hx. rewrite size_union, size_singleton; [done |].
    apply disjoint_singleton_l, Hx. }
  assert (∀ (x : Z) (X : gset Z), x ∈ X → S (size (X ∖ {[x]})) = size X) as Hdel.
  { intros x X Hx. rewrite <- (Hadd x (X ∖ {[x]})).
    - f_equal. symmetry. apply union_difference_singleton_L, Hx.
    - rewrite elem_of_difference, elem_of_singleton. tauto. }
  split_and!.
  - rewrite createAudioPatch_eq. unfold open_handles at 1.
    cbn [fst dev with_handles mAudioPatchHandles]. by apply Hadd.
  - intros Hin. split.
    + rewrite releaseAudioPatch_present by done. unfold open_handles at 1.
      cbn [fst dev with_handles mAudioPatchHandles]. by apply Hdel.
    + rewrite updateAudioPatch_present by done. unfold open_handles at 1.
      cbn [fst dev with_handles mAudioPatchHandles].
      rewrite Hadd; [by apply Hdel |].
      rewrite elem_of_difference. tauto.
  - intros Hout.
    by rewrite releaseAudioPatch_absent, updateAudioPatch_absent.
Qed.

Lemma open_count_effects_witness :
  size (open_handles (createAudioPatch [] [] (mkProcess 5 (mkDeviceImpl 20 40 {[2; 4]}))).1)
  = 3%nat ∧
  size (open_handles (updateAudioPatch 4 [] [] (mkProcess 5 (mkDeviceImpl 20 40 {[2; 4]}))).1)
  = 2%nat.
Proof.
  assert (gNextAudioPatchHandle (mkProcess 5 (mkDeviceImpl 20 40 {[2; 4]}))
          ∉ open_handles (mkProcess 5 (mkDeviceImpl 20 40 {[2; 4]}))) as Hfresh.
  { unfold open_handles. simpl. rewrite elem_of_union, !elem_of_singleton. lia. }
  assert (4 ∈ open_handles (mkProcess 5 (mkDeviceImpl 20 40 {[2; 4]}))) as Hin.
  { unfold open_handles. simpl. rewrite elem_of_union, !elem_of_singleton. by right. }
  destruct (open_count_effects 4 [] [] _ Hfresh) as (Hc & Hpresent & _).
  destruct (Hpresent Hin) as [_ Hu].
  split; [rewrite Hc | rewrite Hu]; reflexivity.
Defined.

(** ** Further properties of the stream session manager *)


Example openOutputStream_null_stream_release_build :
  openOutputStream false 13 (mkDeviceAddress 16777216 "bus0_media")
                   (mkAudioConfig 48000 3 1 [] 960) 2 (mkSourceMetadata [])
                   null_provider (startup 20 40)
  = Returns (null_provider, startup 20 40,
             (OK, mkStreamOutImpl None 20 40, mkAudioConfig 48000 3 1 [] 960)).
Proof. reflexivity. Qed.

Example openOutputStream_null_stream_debug_build :
  openOutputStream (B := Z) true 13 (mkDeviceAddress 16777216 "bus0_media")
                   (mkAudioConfig 48000 3 1 [] 960) 2 (mkSourceMetadata [])
                   null_provider (startup 20 40)
  = Aborts.
Proof. reflexivity. Qed.

(** ** Further properties of the configuration translator *)

Lemma to_int32_inj (x y : Z) :
  is_uint32 x → is_uint32 y → to_int32 x = to_int32 y → x = y.
Proof.
  unfold is_uint32, UINT32_MAX, to_int32. intros Hx Hy Heq.
  Z.div_mod_to_equations. lia.
Qed.

(** X8: on configs whose three fields are 32-bit unsigned values, two
    configs translate to the same bus config exactly when they agree on
    sample rate, format and channel mask: the translation never merges two
    different values of a field, and the offload information and the frame
    count have no influence on it. *)
Theorem toAidlAudioConfig_injective (c1 c2 : AudioConfig) :
  AudioConfig_wf c1 →
  AudioConfig_wf c2 →
  (toAidlAudioConfig c1 = toAidlAudioConfig c2 ↔
   sampleRateHz c1 = sampleRateHz c2 ∧
   format c1 = format c2 ∧
   channelMask c1 = channelMask c2).
Proof.
  intros (Hr1 & Hm1 & Hf1) (Hr2 & Hm2 & Hf2). split.
  - unfold toAidlAudioConfig. intros [= Hf Hr Hm].
    split_and!; by apply to_int32_inj.
  - intros (Hr & Hf & Hm). unfold toAidlAudioConfig. by rewrite Hr, Hf, Hm.
Qed.

Lemma toAidlAudioConfig_injective_witness :
  toAidlAudioConfig (mkAudioConfig 48000 3 1 [] 960)
  = toAidlAudioConfig (mkAudioConfig 48000 3 1 [7; 8] 0) ∧
  toAidlAudioConfig (mkAudioConfig 48000 3 1 [] 960)
  ≠ toAidlAudioConfig (mkAudioConfig 44100 3 1 [] 960).
Proof.
  assert (∀ r o f, 0 ≤ r ≤ 48000 → AudioConfig_wf (mkAudioConfig r 3 1 o f)) as Hwf.
  { intros r o f Hr. unfold AudioConfig_wf, is_uint32, UINT32_MAX. simpl. lia. }
  split.
  - apply (toAidlAudioConfig_injective _ _ (Hwf 48000 [] 960 ltac:(lia))
             (Hwf 48000 [7; 8] 0 ltac:(lia))).
    by simpl.
  - intros Heq.
    apply (toAidlAudioConfig_injective _ _ (Hwf 48000 [] 960 ltac:(lia))
             (Hwf 44100 [] 960 ltac:(lia))) in Heq as [Hr _].
    simpl in Hr. lia.
Defined.

(** ** Several devices on the one generator *)

(** X9: two creates in a row, on the same device or on two different devices
    of the process, return consecutive handles, hence different ones, as
    long as the generator is below [INT32_MAX]. *)
Theorem creates_across_devices_differ (i j : nat) (di dj : DeviceImpl)
    (sources sinks sources' sinks' : list AudioPortConfig) (w : World) :
  w_devices w !! i = Some di →
  w_devices w !! j = Some dj →
  is_int32 (w_next w) →
  w_next w < INT32_MAX →
  ∃ w1 w2,
    call_on i (createAudioPatch sources sinks) w = Some (w1, (OK, w_next w)) ∧
    call_on j (createAudioPatch sources' sinks') w1 = Some (w2, (OK, w_next w + 1)).
Proof.
  intros Hi Hj Hrange Hbound.
  assert (to_int32 (w_next w + 1) = w_next w + 1) as Hstep.
  { apply to_int32_id. unfold is_int32, INT32_MIN, INT32_MAX in *. lia. }
  assert (∃ d, <[i:=with_handles ({[w_next w]} ∪ open_handles (mkProcess (w_next w) di)) di]>
                 (w_devices w) !! j = Some d) as [d Hd].
  { apply lookup_lt_is_Some. rewrite length_insert.
    by apply lookup_lt_is_Some; eexists. }
  unfold call_on at 1. rewrite Hi, createAudioPatch_eq.
  cbn [gNextAudioPatchHandle dev]. rewrite Hstep.
  eexists _, _. split; [reflexivity |].
  unfold call_on. cbn [w_devices w_next]. rewrite Hd.
  rewrite createAudioPatch_eq. cbn [gNextAudioPatchHandle]. reflexivity.
Qed.

Lemma creates_across_devices_differ_witness :
  ∃ w1 w2,
    call_on 0 (createAudioPatch [] [])
      (mkWorld 3 [mkDeviceImpl 20 40 {[1]}; mkDeviceImpl 10 30 {[2]}])
    = Some (w1, (OK, 3)) ∧
    call_on 1 (createAudioPatch [] []) w1 = Some (w2, (OK, 3 + 1)).
Proof.
  apply (creates_across_devices_differ 0 1 (mkDeviceImpl 20 40 {[1]})
           (mkDeviceImpl 10 30 {[2]}) [] [] [] []
           (mkWorld 3 [mkDeviceImpl 20 40 {[1]}; mkDeviceImpl 10 30 {[2]}])).
  - reflexivity.
  - reflexivity.
  - unfold is_int32, INT32_MIN, INT32_MAX. simpl. lia.
  - unfold INT32_MAX. simpl. lia.
Defined.

(** X10: a patch created through one device is not known to another device
    of the process: releasing its handle through a different device, whose
    own set does not hold that value, returns INVALID_ARGUMENTS and changes
    nothing, while releasing it through the device that created it
    succeeds. *)
Theorem release_through_other_device_fails (i j : nat) (di dj : DeviceImpl)
    (sources sinks : list AudioPortConfig) (w : World) :
  i ≠ j →
  w_devices w !! i = Some di →
  w_devices w !! j = Some dj →
  w_next w ∉ mAudioPatchHandles dj →
  ∃ w1 w2,
    call_on i (createAudioPatch sources sinks) w = Some (w1, (OK, w_next w)) ∧
    call_on j (releaseAudioPatch (w_next w)) w1 = Some (w1, INVALID_ARGUMENTS) ∧
    call_on i (releaseAudioPatch (w_next w)) w1 = Some (w2, OK).
Proof.
  intros Hne Hi Hj Hfresh.
  unfold call_on at 1. rewrite Hi, createAudioPatch_eq.
  cbn [gNextAudioPatchHandle dev].
  eexists _, _. split; [reflexivity |].
  unfold call_on. cbn [w_devices w_next].
  rewrite list_lookup_insert_ne, Hj by done.
  rewrite list_lookup_insert_eq by (by apply lookup_lt_is_Some; eexists).
  split.
  - rewrite releaseAudioPatch_absent by done. cbn [gNextAudioPatchHandle dev].
    rewrite list_insert_id; [reflexivity |].
    by rewrite list_lookup_insert_ne.
  - rewrite releaseAudioPatch_present; [reflexivity |].
    unfold open_handles. cbn [dev with_handles mAudioPatchHandles].
    rewrite elem_of_union, elem_of_singleton. by left.
Qed.

Lemma release_through_other_device_fails_witness :
  ∃ w1 w2,
    call_on 0 (createAudioPatch [] [])
      (mkWorld 3 [mkDeviceImpl 20 40 {[1]}; mkDeviceImpl 10 30 {[2]}])
    = Some (w1, (OK, 3)) ∧
    call_on 1 (releaseAudioPatch 3) w1 = Some (w1, INVALID_ARGUMENTS) ∧
    call_on 0 (releaseAudioPatch 3) w1 = Some (w2, OK).
Proof.
  apply (release_through_other_device_fails 0 1 (mkDeviceImpl 20 40 {[1]})
           (mkDeviceImpl 10 30 {[2]}) [] []
           (mkWorld 3 [mkDeviceImpl 20 40 {[1]}; mkDeviceImpl 10 30 {[2]}])).
  - lia.
  - reflexivity.
  - reflexivity.
  - simpl. rewrite elem_of_singleton. lia.
Defined.

(** ** Releases along a trace *)

Lemma retired_single_NoDup (e : PatchEvent) : NoDup (retired [e]).
Proof.
  destruct e as [r h | h r | h0 r h]; try destruct r; simpl;
    repeat constructor; by intros ?%elem_of_nil.
Qed.

Lemma run_retired (cs : list PatchCall) :
  ∀ p : Process,
    below_generator p →
    is_int32 (gNextAudioPatchHandle p) →
    gNextAudioPatchHandle p + allocating_calls cs ≤ INT32_MAX →
    NoDup (retired (run cs p).2) ∧
    (∀ h, h ∈ retired (run cs p).2 →
          h ∈ open_handles p ∨ h ∈ allocated (run cs p).2).
Proof.
  induction cs as [| c cs IH]; intros p Hbelow Hrange Hbound.
  { cbn [run snd retired]. split; [constructor | by intros h ?%elem_of_nil]. }
  rewrite run_cons. cbn [fst snd].
  destruct (perform_keeps_below c cs p Hbelow Hrange Hbound)
    as (Hb1 & Hr1 & Hge & Hbd1 & _).
  assert (gNextAudioPatchHandle p ∉ open_handles p) as Hfresh.
  { intros Hin. apply Hbelow in Hin. lia. }
  destruct (perform_open_set c p Hfresh) as (Hret & Hstep).
  destruct (run_allocations cs (perform c p).1 Hb1 Hr1) as (HF & _); [lia |].
  assert (∀ h, h ∈ retired [(perform c p).2] →
               h ∉ allocated (run cs (perform c p).1).2) as Hsep.
  { intros h Hr. eapply below_lower_bound_not_elem.
    - eapply Forall_impl; [exact HF |]. cbv beta. intros x Hx. apply Hx.
    - apply Hret, Hbelow in Hr. lia. }
  destruct (IH (perform c p).1 Hb1 Hr1 Hbd1) as (Hnd & Hknown).
  rewrite (allocated_cons _ (run cs (perform c p).1).2),
    (retired_cons _ (run cs (perform c p).1).2).
  split.
  - apply NoDup_app. split_and!; [apply retired_single_NoDup | | exact Hnd].
    intros h Hh0 Hh'. destruct (Hknown h Hh') as [Hopen1 | Halloc].
    + apply Hstep in Hopen1 as [_ Hno]. by apply Hno.
    + by apply (Hsep h).
  - intros h [Hh0 | Hh']%elem_of_app.
    + left. by apply Hret.
    + rewrite elem_of_app. destruct (Hknown h Hh') as [Hopen1 | Halloc].
      * apply Hstep in Hopen1. tauto.
      * tauto.
Qed.

(** X11: from process start, while fewer than [INT32_MAX] of the calls are
    creates or updates, no handle is taken out of the open set twice: each
    handle is released, or replaced by an update, at most once. *)
Theorem each_handle_retired_at_most_once (bufferSizeMs latencyMs : Z)
    (cs : list PatchCall) :
  allocating_calls cs < INT32_MAX →
  NoDup (retired (run cs (startup bufferSizeMs latencyMs)).2).
Proof.
  intros Hbound.
  apply (run_retired cs (startup bufferSizeMs latencyMs)).
  - intros h Hh. by apply elem_of_empty in Hh.
  - unfold is_int32, INT32_MIN, INT32_MAX. simpl. lia.
  - simpl. lia.
Qed.

Lemma each_handle_retired_at_most_once_witness :
  NoDup (retired (run [CallCreate [] []; CallRelease 1; CallRelease 1;
                       CallUpdate 1 [] []; CallCreate [] []; CallUpdate 2 [] []]
                      (startup 20 40)).2) ∧
  retired (run [CallCreate [] []; CallRelease 1; CallRelease 1;
                CallUpdate 1 [] []; CallCreate [] []; CallUpdate 2 [] []]
               (startup 20 40)).2 = [1; 2].
Proof.
  split; [| reflexivity].
  apply (each_handle_retired_at_most_once 20 40).
  unfold INT32_MAX. simpl. lia.
Defined.

Lemma run_retires_known (cs : list PatchCall) :
  ∀ (p : Process) (tr1 : list PatchEvent) (e : PatchEvent)
    (tr2 : list PatchEvent) (h : Z),
    (run cs p).2 = tr1 ++ e :: tr2 →
    retires e h →
    h ∈ open_handles p ∨ h ∈ allocated tr1.
Proof.
  induction cs as [| c cs IH]; intros p tr1 e tr2 h Heq Hr.
  { destruct tr1; discriminate. }
  rewrite run_cons in Heq. cbn [snd] in Heq.
  destruct (perform_effect c p) as (Hret & _ & Hcases).
  destruct tr1 as [| e1 tr1]; injection Heq as He Htl.
  - left. apply Hret. by rewrite He.
  - destruct (IH _ _ _ _ _ Htl Hr) as [Hopen1 | Halloc].
    + rewrite allocated_cons, elem_of_app, <- He.
      destruct Hcases as [(_ & _ & Hsub & _) | (Ha & _ & Hsub & _)].
      * left. by apply Hsub.
      * apply Hsub in Hopen1. rewrite Ha, list_elem_of_singleton.
        apply elem_of_union in Hopen1 as [->%elem_of_singleton | Hopen]; tauto.
    + right. rewrite allocated_cons, elem_of_app. tauto.
Qed.

(** X12: from process start and for every sequence of calls, with no bound
    on its length, a release or an update succeeds only on a handle that an
    earlier call of the sequence handed out. *)
Theorem only_handed_out_handles_are_released (bufferSizeMs latencyMs : Z)
    (cs : list PatchCall) (tr1 tr2 : list PatchEvent) (e : PatchEvent)
    (h : AudioPatchHandle) :
  (run cs (startup bufferSizeMs latencyMs)).2 = tr1 ++ e :: tr2 →
  retires e h →
  h ∈ allocated tr1.
Proof.
  intros Heq Hr.
  destruct (run_retires_known cs _ _ _ _ _ Heq Hr) as [Hopen | Halloc]; [| done].
  by apply elem_of_empty in Hopen.
Qed.

Lemma only_handed_out_handles_are_released_witness :
  1 ∈ allocated [EvCreate OK 1; EvCreate OK 2].
Proof.
  apply (only_handed_out_handles_are_released 20 40
           [CallCreate [] []; CallCreate [] []; CallRelease 1; CallRelease 7]
           [EvCreate OK 1; EvCreate OK 2] [EvRelease 7 INVALID_ARGUMENTS]
           (EvRelease 1 OK) 1).
  - reflexivity.
  - left. reflexivity.
Defined.

(** X13: from process start, while fewer than [INT32_MAX] of the calls are
    creates or updates, the number of open patches plus the number of
    handles taken out equals the number of handles handed out. *)
Theorem open_count_balance (bufferSizeMs latencyMs : Z) (cs : list PatchCall) :
  allocating_calls cs < INT32_MAX →
  (size (open_handles (run cs (startup bufferSizeMs latencyMs)).1)
   + length (retired (run cs (startup bufferSizeMs latencyMs)).2))%nat
  = length (allocated (run cs (startup bufferSizeMs latencyMs)).2).
Proof.
  intros Hbound.
  assert (below_generator (startup bufferSizeMs latencyMs)) as Hb0.
  { intros k Hk. by apply elem_of_empty in Hk. }
  assert (is_int32 (gNextAudioPatchHandle (startup bufferSizeMs latencyMs))) as Hr0.
  { unfold is_int32, INT32_MIN, INT32_MAX. simpl. lia. }
  assert (gNextAudioPatchHandle (startup bufferSizeMs latencyMs) + allocating_calls cs
          ≤ INT32_MAX) as Hbd by (simpl; lia).
  destruct (run_retired cs _ Hb0 Hr0 Hbd) as (HndR & Hknown).
  destruct (run_allocations cs _ Hb0 Hr0) as (_ & HS & _); [lia |].
  pose proof (StronglySorted_lt_NoDup _ HS) as HndA.
  pose proof (run_open_set cs _ Hb0 Hr0 Hbd) as Hopen.
  set (A := allocated (run cs (startup bufferSizeMs latencyMs)).2) in *.
  set (R := retired (run cs (startup bufferSizeMs latencyMs)).2) in *.
  assert (open_handles (run cs (startup bufferSizeMs latencyMs)).1
          = list_to_set A ∖ list_to_set R) as ->.
  { apply leibniz_equiv. intros h.
    rewrite Hopen, elem_of_difference, !elem_of_list_to_set.
    assert (h ∉ open_handles (startup bufferSizeMs latencyMs)) by apply not_elem_of_empty.
    tauto. }
  assert ((list_to_set R : gset Z) ⊆ list_to_set A) as Hsub.
  { intros h. rewrite !elem_of_list_to_set. intros Hh.
    destruct (Hknown h Hh) as [Hin | Hin]; [by apply elem_of_empty in Hin | done]. }
  rewrite size_difference by done.
  pose proof (subseteq_size _ _ Hsub) as Hle.
  rewrite !size_list_to_set in * by done. lia.
Qed.

Lemma open_count_balance_witness :
  (size (open_handles
           (run [CallCreate [] []; CallCreate [] []; CallRelease 1; CallRelease 1;
                 CallCreate [] []] (startup 20 40)).1)
   + length (retired
               (run [CallCreate [] []; CallCreate [] []; CallRelease 1; CallRelease 1;
                     CallCreate [] []] (startup 20 40)).2))%nat
  = 3%nat.
Proof.
  rewrite (open_count_balance 20 40); [reflexivity |].
  unfold INT32_MAX. simpl. lia.
Defined.

(** ** A freshly built device *)

(** X14: a device as the constructor leaves it holds no patch, whatever the
    generator's value at that time: every release and every update returns
    INVALID_ARGUMENTS and changes nothing, and the first create returns the
    generator's value and leaves exactly that handle open. *)
Theorem fresh_device_has_no_patches (next : AudioPatchHandle)
    (bufferSizeMs latencyMs : Z) (h : AudioPatchHandle)
    (sources sinks : list AudioPortConfig) :
  releaseAudioPatch h (mkProcess next (DeviceImpl_new bufferSizeMs latencyMs))
  = (mkProcess next (DeviceImpl_new bufferSizeMs latencyMs), INVALID_ARGUMENTS) ∧
  updateAudioPatch h sources sinks
    (mkProcess next (DeviceImpl_new bufferSizeMs latencyMs))
  = (mkProcess next (DeviceImpl_new bufferSizeMs latencyMs), (INVALID_ARGUMENTS, 0)) ∧
  (createAudioPatch sources sinks
     (mkProcess next (DeviceImpl_new bufferSizeMs latencyMs))).2 = (OK, next) ∧
  open_handles
    (createAudioPatch sources sinks
       (mkProcess next (DeviceImpl_new bufferSizeMs latencyMs))).1 = {[next]}.
Proof.
  assert (h ∉ open_handles (mkProcess next (DeviceImpl_new bufferSizeMs latencyMs)))
    as Hout by apply not_elem_of_empty.
  split_and!.
  - by apply releaseAudioPatch_absent.
  - by apply updateAudioPatch_absent.
  - reflexivity.
  - rewrite createAudioPatch_eq. unfold open_handles.
    cbn [fst dev with_handles mAudioPatchHandles DeviceImpl_new].
    apply (right_id_L ∅ (∪)).
Qed.
